(** * GameBase: the base component of comp-game-base-ts

    A shallow embedding of [src/comp-game-base-ts.ts].  The component is a
    mutable object living next to the host engine; its methods are modelled
    as computations over a [World] holding the component ([this]), the
    engine's collision manager, the page's query string and the log of the
    calls made to the engine.  A method either returns or throws; the world
    reached before a throw is kept, as in JavaScript.

    What the file imports and does not define is taken as a parameter:
    [capitalize] and [parseQuery] of util-strings, and the id that
    [cc.audioEngine.play] hands out.  [loadImage] is modelled with the node
    it dresses; [loadGif], which drives the Gif component of comp-gif, and
    the logging forwarders are not modelled. *)

From Stdlib Require Import ZArith Ascii String.
From stdpp Require Import gmap strings list fin_maps.

Open Scope Z_scope.

(** ** Engine objects *)

(** An audio clip is an engine object; the component only stores and
    forwards it.  Objects are truthy in JavaScript, so a stored clip always
    passes the test [!url]. *)
Record AudioClip := mkClip { clip_tag : nat }.

Record Node := mkNode { node_tag : nat }.

Record CollisionManager := mkCollisionManager {
  enabled : bool;
  enabledDebugDraw : bool
}.

(** [cc.loaderp.IDragonBoneLoadOptions] as [loadDragonBones] fills it. *)
Record IDragonBoneLoadOptions := mkDragonBoneOpts {
  skeUrl : string;
  texJsonUrl : string;
  texUrl : string;
  armatureName : string;
  animationName : string;
  times : Z
}.

(** The calls the component makes to the engine. *)
Inductive Call :=
| Load (url : string)                       (* cc.loaderp.load(url) *)
| LoadAll (args : list (list string))       (* cc.loaderp.loadAll(args) *)
| LoadDragonBone (opts : IDragonBoneLoadOptions) (node : Node)
| Play (clip : AudioClip)                   (* cc.audioEngine.play(clip) *)
| SetFinishCallback (id : Z).               (* cc.audioEngine.setFinishCallback(id, rs) *)

(** ** Imports taken as parameters *)

Definition Query := list (string * string).

(** [strings.capitalize] of util-strings. *)
Class Capitalize := capitalize : string → string.
(** [strings.parseQuery] of util-strings. *)
Class ParseQuery := parseQuery : string → Query.
(** The id [cc.audioEngine.play] returns, which may depend on everything
    the engine has been asked so far. *)
Class AudioEngine := audioEngine_play : list Call → AudioClip → Z.

(** ** The component *)

Inductive EnvModule := util_env.

(** The declared fields, and [props] for the properties created at run time
    through the index signature [[key: string]: any].  The component only
    ever creates properties named ["_$audio" + ...], which no declared field
    is, so the two never alias. *)
Record GameBase := mkGameBase {
  collisionSystem : bool;
  debugCollision : bool;
  resourceHost : string;
  directory : string;
  _env : option EnvModule;
  _query : Query;
  props : gmap string AudioClip
}.

(** The component as the class initialisers leave it. *)
Definition fresh : GameBase :=
  {| collisionSystem := false; debugCollision := false;
     resourceHost := ""; directory := "";
     _env := None; _query := []; props := ∅ |}.

Record World := mkWorld {
  this : GameBase;
  collisionManager : option CollisionManager;  (* cc.director.getCollisionManager() *)
  location_search : string;                    (* location.search *)
  calls : list Call                            (* engine calls, oldest first *)
}.

Definition set_this (f : GameBase → GameBase) (w : World) : World :=
  {| this := f (this w); collisionManager := collisionManager w;
     location_search := location_search w; calls := calls w |}.

Definition set_collisionManager (cm : option CollisionManager) (w : World) : World :=
  {| this := this w; collisionManager := cm;
     location_search := location_search w; calls := calls w |}.

Definition log_call (c : Call) (w : World) : World :=
  {| this := this w; collisionManager := collisionManager w;
     location_search := location_search w; calls := calls w ++ [c] |}.

Definition set_resourceHost (h : string) (g : GameBase) : GameBase :=
  {| collisionSystem := collisionSystem g; debugCollision := debugCollision g;
     resourceHost := h; directory := directory g;
     _env := _env g; _query := _query g; props := props g |}.

Definition set_directory (d : string) (g : GameBase) : GameBase :=
  {| collisionSystem := collisionSystem g; debugCollision := debugCollision g;
     resourceHost := resourceHost g; directory := d;
     _env := _env g; _query := _query g; props := props g |}.

Definition set_env (e : EnvModule) (g : GameBase) : GameBase :=
  {| collisionSystem := collisionSystem g; debugCollision := debugCollision g;
     resourceHost := resourceHost g; directory := directory g;
     _env := Some e; _query := _query g; props := props g |}.

Definition set_query (q : Query) (g : GameBase) : GameBase :=
  {| collisionSystem := collisionSystem g; debugCollision := debugCollision g;
     resourceHost := resourceHost g; directory := directory g;
     _env := _env g; _query := q; props := props g |}.

(** [this[name] = clip] *)
Definition set_prop (name : string) (clip : AudioClip) (g : GameBase) : GameBase :=
  {| collisionSystem := collisionSystem g; debugCollision := debugCollision g;
     resourceHost := resourceHost g; directory := directory g;
     _env := _env g; _query := _query g; props := <[name := clip]> (props g) |}.

(** ** Computations that may throw *)

(** [new Error(message)] *)
Inductive Error := mkError (message : string).

Inductive completion (A : Type) :=
| Returns (a : A)
| Throws (e : Error).
Arguments Returns {A} a.
Arguments Throws {A} e.

Definition M (A : Type) : Type := World → completion A * World.

#[global] Instance M_ret : MRet M := λ A a w, (Returns a, w).
#[global] Instance M_bind : MBind M := λ A B f m w,
  match m w with
  | (Returns a, w') => f a w'
  | (Throws e, w') => (Throws e, w')
  end.

Definition throw {A} (e : Error) : M A := λ w, (Throws e, w).
Definition gets {A} (f : World → A) : M A := λ w, (Returns (f w), w).
Definition modify (f : World → World) : M unit := λ w, (Returns tt, f w).
Definition call (c : Call) : M unit := modify (log_call c).

(** The outcome of running a method in a world. *)
Definition run {A} (m : M A) (w : World) : completion A * World := m w.

(** JavaScript truthiness of a string: only the empty string is falsy. *)
Definition truthy (s : string) : bool :=
  match s with EmptyString => false | String _ _ => true end.

(** A promise handed back by a method: the engine request it waits for, and
    what the callbacks the component attached do to the world when the
    engine resolves the request with [v]. *)
Record Promise (V : Type) := mkPromise {
  source : Call;
  on_resolve : V → World → World
}.
Arguments mkPromise {V} source on_resolve.
Arguments source {V} p.
Arguments on_resolve {V} p v w.

(** What [playAudioPromise] returns. *)
#[local] Set Warnings "-register-all".
Inductive PlayPromise :=
| Rejected (reason : string)       (* Promise.reject(reason) *)
| Finished (id : Z)                (* resolved by the finish callback of [id] *)
| Chained (p : Promise AudioClip) (next : M PlayPromise).
                                   (* p.then(() => next) *)

(** The argument of [loadAudios]: an array of file names, or a record given
    as its entries in the order [Object.keys] enumerates them. *)
Inductive Filenames :=
| FArray (filenames : list string)
| FRecord (filenames : list (string * string)).

(** [filenames[k]] on a record. *)
Fixpoint record_get (r : list (string * string)) (k : string) : option string :=
  match r with
  | [] => None
  | (k', v) :: r' => if decide (k' = k) then Some v else record_get r' k
  end.

(** ** The methods *)

Section GameBase.
Context `{Capitalize} `{ParseQuery} `{AudioEngine}.

Definition onLoad : M unit :=
  modify (set_this (set_env util_env));;
  search ← gets location_search;
  modify (set_this (set_query (parseQuery search)));;
  collisionManager ← gets collisionManager;
  match collisionManager with
  | Some _ =>
      self ← gets this;
      modify (set_collisionManager
                (Some {| enabled := collisionSystem self;
                         enabledDebugDraw := debugCollision self |}))
  | None => mret tt
  end.

Definition checkHostAndDir : M unit :=
  self ← gets this;
  (if negb (truthy (resourceHost self))
   then throw (mkError "Please set resource host property of GameBase!")
   else mret tt);;
  (if negb (truthy (directory self))
   then throw (mkError "Please set directory first!")
   else mret tt).

(** The default [dir = this.directory] is taken when the argument is
    omitted, before the body runs. *)
Definition urlOf (filename : string) (dir : option string) : M string :=
  self ← gets this;
  let dir := default (directory self) dir in
  checkHostAndDir;;
  self ← gets this;
  mret (resourceHost self +:+ "/" +:+ dir +:+ "/" +:+ filename).

Definition loadAudio (filename : string) (key : option string)
  : M (Promise AudioClip) :=
  let key := default "" key in
  checkHostAndDir;;
  url ← urlOf filename None;
  call (Load url);;
  mret (mkPromise (Load url)
          (λ clip, if truthy key
                   then set_this (set_prop ("_$audio" +:+ capitalize key) clip)
                   else id)).

(** [clips.forEach((clip, i) => this[`_$audio${capitalize(keys[i])}`] = clip)].
    The engine resolves [loadAll] with one clip per request, so [keys[i]]
    exists for every clip.  Were there more clips than keys, the source
    would go on to call [capitalize] on undefined, which util-strings
    decides; the model stops at the last key and is faithful for at most as
    many clips as keys. *)
Fixpoint store_clips (keys : list string) (clips : list AudioClip)
    (g : GameBase) : GameBase :=
  match clips, keys with
  | clip :: clips', k :: keys' =>
      store_clips keys' clips' (set_prop ("_$audio" +:+ capitalize k) clip g)
  | _, _ => g
  end.

(** The branch [Array.isArray(filenames)] of [loadAudios], guard included. *)
Definition loadAudios_array (filenames : list string)
  : M (Promise (list AudioClip)) :=
  checkHostAndDir;;
  args ← mapM (λ it, url ← urlOf it None; mret [url]) filenames;
  call (LoadAll args);;
  mret (mkPromise (LoadAll args) (λ _, id)).

(** The record branch calls [loadAudios] again on an array, which is
    [loadAudios_array]. *)
Definition loadAudios (filenames : Filenames) : M (Promise (list AudioClip)) :=
  match filenames with
  | FArray l => loadAudios_array l
  | FRecord r =>
      checkHostAndDir;;
      let keys := r.*1 in
      let values := omap (record_get r) keys in
      p ← loadAudios_array values;
      mret (mkPromise (source p)
              (λ clips w, set_this (store_clips keys clips) (on_resolve p clips w)))
  end.

Definition playAudio (audioName : string) : M Z :=
  let key := capitalize audioName in
  self ← gets this;
  match props self !! ("_$audio" +:+ capitalize key) with
  | None => mret (-1)
  | Some url =>
      history ← gets calls;
      call (Play url);;
      mret (audioEngine_play history url)
  end.

(** The body of [playAudioPromise], with the method it calls on [this]
    after the load passed as [retry]. *)
Definition playAudioPromise_body (retry : string → M PlayPromise)
    (audioName : string) (tryLoad : option bool) (key : option string)
    (ext : option string) : M PlayPromise :=
  let tryLoad := default false tryLoad in
  let key := default audioName key in
  let ext := default ".mp3" ext in
  id ← playAudio key;
  if id <? 0 then
    if negb tryLoad then
      mret (Rejected (audioName +:+ " not found!"))
    else
      p ← loadAudio (audioName +:+ ext) (Some key);
      mret (Chained p (retry audioName))
  else
    call (SetFinishCallback id);;
    mret (Finished id).

(** The retry passes [audioName] alone, so [tryLoad] is false in it and it
    retries no further: two levels close the recursion. *)
Definition playAudioPromise : string → option bool → option string →
    option string → M PlayPromise :=
  playAudioPromise_body
    (λ audioName,
       playAudioPromise_body (λ _, mret (Rejected "")) audioName None None None).

Definition loadDragonBones (name : string) (node : Node) (armature : string)
    (animation : string) (times : option Z) : M (Promise unit) :=
  let times := default (-1) times in
  skeUrl ← urlOf (name +:+ "_ske.json") None;
  texJsonUrl ← urlOf (name +:+ "_tex.json") None;
  texUrl ← urlOf (name +:+ "_tex.png") None;
  let opts := {| skeUrl := skeUrl; texJsonUrl := texJsonUrl; texUrl := texUrl;
                 armatureName := armature; animationName := animation;
                 times := times |} in
  call (LoadDragonBone opts node);;
  mret (mkPromise (LoadDragonBone opts node) (λ _, id)).

(** The setters return [this]: the value returned is the component as the
    assignment left it. *)
Definition setResourceHost (host : string) : M GameBase :=
  modify (set_this (set_resourceHost host));;
  gets this.

Definition setDirectory (dir : string) : M GameBase :=
  modify (set_this (set_directory dir));;
  gets this.

End GameBase.

(** ** A concrete host, to run the model on *)

Definition upper_ascii (c : ascii) : ascii :=
  let n := nat_of_ascii c in
  if ((97 <=? n)%nat && (n <=? 122)%nat)%bool then ascii_of_nat (n - 32) else c.

(** Modelled from the spec: [strings.capitalize] comes from util-strings,
    which is not under src/.  Its name and the "key-casing convention" the
    spec speaks of say that it turns the first letter of the key into a
    capital and leaves the rest; this is that function on ASCII letters. *)
Definition first_upper : Capitalize := λ s,
  match s with
  | EmptyString => EmptyString
  | String c rest => String (upper_ascii c) rest
  end.

(** A query parser that finds nothing. *)
Definition no_query : ParseQuery := λ _, [].

(** An engine that numbers the plays by the length of its history. *)
Definition counting_engine : AudioEngine := λ history _, Z.of_nat (length history).

(** A component as constructed, in a world with no collision manager and no
    engine call made yet. *)
Definition unconfigured : World :=
  {| this := fresh; collisionManager := None; location_search := ""; calls := [] |}.

(** The same with host ["h"] and directory ["d"] set. *)
Definition configured : World :=
  {| this := set_directory "d" (set_resourceHost "h" fresh);
     collisionManager := None; location_search := ""; calls := [] |}.

(** ** The vocabulary of the statements *)

(** The two errors of [checkHostAndDir]. *)
Definition host_error : Error :=
  mkError "Please set resource host property of GameBase!".
Definition directory_error : Error :=
  mkError "Please set directory first!".

Definition thrown {A} (r : completion A * World) : option Error :=
  match r.1 with
  | Throws e => Some e
  | Returns _ => None
  end.

(** A method is guarded when it throws exactly on a component whose
    resourceHost or directory is empty, the resource-host error taking
    precedence. *)
Definition guarded {A} (m : M A) (w : World) : Prop :=
  (is_Some (thrown (run m w)) ↔
     resourceHost (this w) = "" ∨ directory (this w) = "") ∧
  (resourceHost (this w) = "" → thrown (run m w) = Some host_error) ∧
  (resourceHost (this w) ≠ "" → directory (this w) = "" →
     thrown (run m w) = Some directory_error).

(** The calls a user of the component can make. *)
Inductive Invocation :=
| IOnLoad
| ILoadAudio (filename : string) (key : option string)
| ILoadAudios (filenames : Filenames)
| IPlayAudio (audioName : string)
| IPlayAudioPromise (audioName : string) (tryLoad : option bool)
    (key ext : option string)
| ILoadDragonBones (name : string) (node : Node) (armature animation : string)
    (times : option Z)
| ISetResourceHost (host : string)
| ISetDirectory (dir : string)
| IUrlOf (filename : string) (dir : option string).

Definition thrown_by `{Capitalize} `{ParseQuery} `{AudioEngine}
    (i : Invocation) (w : World) : option Error :=
  match i with
  | IOnLoad => thrown (run onLoad w)
  | ILoadAudio f key => thrown (run (loadAudio f key) w)
  | ILoadAudios fs => thrown (run (loadAudios fs) w)
  | IPlayAudio n => thrown (run (playAudio n) w)
  | IPlayAudioPromise a t k e => thrown (run (playAudioPromise a t k e) w)
  | ILoadDragonBones n node a m t => thrown (run (loadDragonBones n node a m t) w)
  | ISetResourceHost h => thrown (run (setResourceHost h) w)
  | ISetDirectory d => thrown (run (setDirectory d) w)
  | IUrlOf f d => thrown (run (urlOf f d) w)
  end.

(** What a setter leaves alone in the component and around it. *)
Definition same_outside_config (w w' : World) : Prop :=
  collisionSystem (this w') = collisionSystem (this w) ∧
  debugCollision (this w') = debugCollision (this w) ∧
  _env (this w') = _env (this w) ∧
  _query (this w') = _query (this w) ∧
  props (this w') = props (this w) ∧
  collisionManager w' = collisionManager w ∧
  location_search w' = location_search w ∧
  calls w' = calls w.

(** The name of the property an audio key is stored under. *)
Definition slot `{Capitalize} (key : string) : string :=
  "_$audio" +:+ capitalize key.

(** The promise [loadAudio] returns for [url] and [key]. *)
Definition audio_promise `{Capitalize} (url key : string) : Promise AudioClip :=
  mkPromise (Load url)
    (λ clip, if truthy key
             then set_this (set_prop ("_$audio" +:+ capitalize key) clip)
             else id).

(** The argument list [filenames.map(it => [this.urlOf(it)])]. *)
Definition load_args (g : GameBase) (filenames : list string) : list (list string) :=
  (λ it, [resourceHost g +:+ "/" +:+ directory g +:+ "/" +:+ it]) <$> filenames.

(** [playAudio(k)] hands clip [c] to the audio engine and returns the id
    the engine gives for it. *)
Definition plays `{Capitalize} `{AudioEngine} (k : string) (c : AudioClip)
    (w : World) : Prop :=
  run (playAudio k) w
  = (Returns (audioEngine_play (calls w) c), log_call (Play c) w).

(** The round trip through [loadAudios(r)], resolved with [clips], as the
    specification words it: the urls are requested in key order, and each
    clip ends up under the slot of its key, where [playAudio] finds it. *)
Definition loadAudios_stores_and_plays `{Capitalize} `{AudioEngine}
    (r : list (string * string)) (clips : list AudioClip) (w : World) : Prop :=
  ∃ p w1,
    run (loadAudios (FRecord r)) w = (Returns p, w1) ∧
    calls w1
    = calls w ++ [LoadAll ((λ kv, [resourceHost (this w) +:+ "/"
                                   +:+ directory (this w) +:+ "/" +:+ kv.2]) <$> r)] ∧
    ∀ i k c, r.*1 !! i = Some k → clips !! i = Some c →
      props (this (on_resolve p clips w1)) !! slot k = Some c ∧
      plays k c (on_resolve p clips w1).

(** [playAudioPromise] with tryLoad = true, as the specification words it:
    whenever [playAudio(key)] comes back negative, a load is requested and
    its clip is stored under the key. *)
Definition tryLoad_loads_under_key `{Capitalize} `{AudioEngine}
    (a : string) (key ext : option string) (w : World) : Prop :=
  ∀ id w', run (playAudio (default a key)) w = (Returns id, w') → id < 0 →
  ∃ p next w1,
    run (playAudioPromise a (Some true) key ext) w = (Returns (Chained p next), w1) ∧
    (∃ url, source p = Load url ∧ calls w1 = calls w' ++ [Load url]) ∧
    ∀ c, props (this (on_resolve p c w1)) !! slot (default a key) = Some c.

(** [urlOf] with an explicit directory, as the specification words it: on a
    component whose directory is empty the error is the directory one. *)
Definition explicit_dir_directory_error (f d : string) (w : World) : Prop :=
  d ≠ "" → directory (this w) = "" →
  run (urlOf f (Some d)) w = (Throws directory_error, w).

(** The world a call leaves behind, whether it returned or threw. *)
Definition world_after `{Capitalize} `{ParseQuery} `{AudioEngine}
    (i : Invocation) (w : World) : World :=
  match i with
  | IOnLoad => (run onLoad w).2
  | ILoadAudio f key => (run (loadAudio f key) w).2
  | ILoadAudios fs => (run (loadAudios fs) w).2
  | IPlayAudio n => (run (playAudio n) w).2
  | IPlayAudioPromise a t k e => (run (playAudioPromise a t k e) w).2
  | ILoadDragonBones n node a m t => (run (loadDragonBones n node a m t) w).2
  | ISetResourceHost h => (run (setResourceHost h) w).2
  | ISetDirectory d => (run (setDirectory d) w).2
  | IUrlOf f d => (run (urlOf f d) w).2
  end.

(** ** Scene nodes and [loadImage] *)

(** The engine objects [loadImage] works on.  A node carries a list of
    components and its own data properties; a sprite carries the frame it
    shows, and [sprite_state] stands for everything else in it, which
    [loadImage] never touches. *)
Record Texture := mkTexture { texture_tag : nat }.

(** [new cc.SpriteFrame(tex)] *)
Record SpriteFrame := mkSpriteFrame { frame_texture : Texture }.

Record Sprite := mkSprite {
  spriteFrame : option SpriteFrame;
  sprite_state : nat
}.

Inductive Component :=
| CSprite (s : Sprite)
| COther (tag : nat).

(** The values [initProps] may hold. *)
Inductive Value :=
| VNumber (z : Z)
| VString (s : string)
| VBoolean (b : bool).

Record NodeState := mkNodeState {
  components : list Component;
  fields : gmap string Value
}.

(** [node.getComponent(cc.Sprite)]: the first sprite attached, or null. *)
Fixpoint getComponent_Sprite (cs : list Component) : option Sprite :=
  match cs with
  | [] => None
  | CSprite s :: _ => Some s
  | COther _ :: cs' => getComponent_Sprite cs'
  end.

(** [node.addComponent(cc.Sprite)]: a sprite in the engine's initial state,
    showing nothing, attached after the components already there. *)
Definition addComponent_Sprite (n : NodeState) : NodeState :=
  {| components := components n ++ [CSprite {| spriteFrame := None; sprite_state := 0 |}];
     fields := fields n |}.

(** [sprite.spriteFrame = frame] on the sprite [getComponent] returned, which
    is the first one of the list. *)
Fixpoint set_spriteFrame (frame : SpriteFrame) (cs : list Component)
    : list Component :=
  match cs with
  | [] => []
  | CSprite s :: cs' =>
      CSprite {| spriteFrame := Some frame; sprite_state := sprite_state s |} :: cs'
  | COther t :: cs' => COther t :: set_spriteFrame frame cs'
  end.

(** [node[i] = v] *)
Definition set_field (i : string) (v : Value) (n : NodeState) : NodeState :=
  {| components := components n; fields := <[i := v]> (fields n) |}.

(** The callback [loadImage] runs when the texture arrives; it returns the
    node as it leaves it and the sprite it resolves with (null cannot
    happen, the sprite having just been found or added). *)
Definition loadImage_then (initProps : option (list (string * Value)))
    (tex : Texture) (node : NodeState) : NodeState * option Sprite :=
  let frame := mkSpriteFrame tex in
  let node :=
    match getComponent_Sprite (components node) with
    | Some _ => node
    | None => addComponent_Sprite node
    end in
  let node :=
    {| components := set_spriteFrame frame (components node);
       fields := fields node |} in
  let node :=
    match initProps with
    | Some ps => foldl (λ n iv, set_field iv.1 iv.2 n) node ps
    | None => node
    end in
  (node, getComponent_Sprite (components node)).

(** What [new Promise(executor)] gives when the executor runs to its end
    and when it throws: a throw in the executor rejects the promise. *)
Inductive Executed (P : Type) :=
| Pending (p : P)
| RejectedWith (e : Error).
Arguments Pending {P} p.
Arguments RejectedWith {P} e.

Definition new_Promise {P} (executor : M P) : M (Executed P) := λ w,
  match executor w with
  | (Returns p, w') => (Returns (Pending p), w')
  | (Throws e, w') => (Returns (RejectedWith e), w')
  end.

(** The pending promise of [loadImage]: the request, the node it will
    dress and the callback waiting for the texture. *)
Record ImagePromise := mkImagePromise {
  image_source : Call;
  image_node : Node;
  image_on_resolve : Texture → NodeState → NodeState * option Sprite
}.

Definition loadImage (path : string) (node : Node)
    (initProps : option (list (string * Value))) : M (Executed ImagePromise) :=
  new_Promise
    (url ← urlOf path None;
     call (Load url);;
     mret (mkImagePromise (Load url) node (loadImage_then initProps))).

(** How many sprites a node carries. *)
Fixpoint sprite_count (cs : list Component) : nat :=
  match cs with
  | [] => 0
  | CSprite _ :: cs' => S (sprite_count cs')
  | COther _ :: cs' => sprite_count cs'
  end.

(** The components of a node that are not sprites, in order. *)
Definition other_components (cs : list Component) : list nat :=
  omap (λ c, match c with CSprite _ => None | COther t => Some t end) cs.



(** ** Running the monad *)

Lemma bind_run {A B} (m : M A) (f : A → M B) (w : World) :
  (m ≫= f) w =
  match m w with
  | (Returns a, w') => f a w'
  | (Throws e, w') => (Throws e, w')
  end.
Proof. reflexivity. Qed.

Lemma truthy_true (s : string) : s ≠ "" → truthy s = true.
Proof. by destruct s. Qed.

Lemma truthy_false (s : string) : s = "" → truthy s = false.
Proof. by intros ->. Qed.

(** A logged call makes a different world. *)
Lemma log_call_neq (c : Call) (w : World) : log_call c w ≠ w.
Proof.
  intros Hw. apply (f_equal (λ w', length (calls w'))) in Hw. cbn in Hw.
  rewrite length_app in Hw. cbn in Hw. lia.
Qed.

Ltac run_monad :=
  unfold run;
  repeat first
    [ rewrite bind_run
    | progress (unfold gets, modify, call, throw, mret, M_ret)
    | progress (cbv beta iota) ].

(** ** The guard *)

Lemma checkHostAndDir_ok (w : World) :
  resourceHost (this w) ≠ "" → directory (this w) ≠ "" →
  checkHostAndDir w = (Returns tt, w).
Proof.
  intros Hh Hd. unfold checkHostAndDir. run_monad.
  by rewrite (truthy_true _ Hh), (truthy_true _ Hd).
Qed.

Lemma checkHostAndDir_host (w : World) :
  resourceHost (this w) = "" → checkHostAndDir w = (Throws host_error, w).
Proof.
  intros Hh. unfold checkHostAndDir. run_monad.
  by rewrite (truthy_false _ Hh).
Qed.

Lemma checkHostAndDir_dir (w : World) :
  resourceHost (this w) ≠ "" → directory (this w) = "" →
  checkHostAndDir w = (Throws directory_error, w).
Proof.
  intros Hh Hd. unfold checkHostAndDir. run_monad.
  by rewrite (truthy_true _ Hh), (truthy_false _ Hd).
Qed.

(** The guard returns or throws, and leaves the world as it found it. *)
Lemma checkHostAndDir_cases (w : World) :
  (resourceHost (this w) ≠ "" ∧ directory (this w) ≠ "" ∧
     checkHostAndDir w = (Returns tt, w)) ∨
  (resourceHost (this w) = "" ∧ checkHostAndDir w = (Throws host_error, w)) ∨
  (resourceHost (this w) ≠ "" ∧ directory (this w) = "" ∧
     checkHostAndDir w = (Throws directory_error, w)).
Proof.
  destruct (decide (resourceHost (this w) = "")) as [Hh|Hh].
  - right; left. eauto using checkHostAndDir_host.
  - destruct (decide (directory (this w) = "")) as [Hd|Hd].
    + right; right. eauto using checkHostAndDir_dir.
    + left. eauto using checkHostAndDir_ok.
Qed.

Lemma urlOf_ok (f : string) (d : option string) (w : World) :
  resourceHost (this w) ≠ "" → directory (this w) ≠ "" →
  urlOf f d w =
  (Returns (resourceHost (this w) +:+ "/" +:+ default (directory (this w)) d
            +:+ "/" +:+ f), w).
Proof.
  intros Hh Hd. unfold urlOf. run_monad. by rewrite checkHostAndDir_ok.
Qed.

Lemma urlOf_host (f : string) (d : option string) (w : World) :
  resourceHost (this w) = "" → urlOf f d w = (Throws host_error, w).
Proof.
  intros Hh. unfold urlOf. run_monad. by rewrite checkHostAndDir_host.
Qed.

Lemma urlOf_dir (f : string) (d : option string) (w : World) :
  resourceHost (this w) ≠ "" → directory (this w) = "" →
  urlOf f d w = (Throws directory_error, w).
Proof.
  intros Hh Hd. unfold urlOf. run_monad. by rewrite checkHostAndDir_dir.
Qed.

(** ** Loading audio *)

Section Loading.
Context `{Capitalize}.

Lemma loadAudio_ok (f : string) (key : option string) (w : World) :
  resourceHost (this w) ≠ "" → directory (this w) ≠ "" →
  let url := resourceHost (this w) +:+ "/" +:+ directory (this w) +:+ "/" +:+ f in
  loadAudio f key w = (Returns (audio_promise url (default "" key)), log_call (Load url) w).
Proof.
  intros Hh Hd url. unfold loadAudio. run_monad.
  rewrite checkHostAndDir_ok by done. run_monad.
  rewrite urlOf_ok by done. by run_monad.
Qed.

Lemma loadAudio_host (f : string) (key : option string) (w : World) :
  resourceHost (this w) = "" → loadAudio f key w = (Throws host_error, w).
Proof.
  intros Hh. unfold loadAudio. run_monad. by rewrite checkHostAndDir_host.
Qed.

Lemma loadAudio_dir (f : string) (key : option string) (w : World) :
  resourceHost (this w) ≠ "" → directory (this w) = "" →
  loadAudio f key w = (Throws directory_error, w).
Proof.
  intros Hh Hd. unfold loadAudio. run_monad. by rewrite checkHostAndDir_dir.
Qed.

Lemma mapM_urlOf_ok (l : list string) (w : World) :
  resourceHost (this w) ≠ "" → directory (this w) ≠ "" →
  mapM (λ it, url ← urlOf it None; mret [url]) l w
  = (Returns (load_args (this w) l), w).
Proof.
  intros Hh Hd. induction l as [|it l IH]; [done|].
  cbn [mapM]. rewrite !bind_run, urlOf_ok by done. cbv beta iota.
  unfold mret at 1, M_ret at 1. cbv beta iota.
  rewrite bind_run, IH. reflexivity.
Qed.

Lemma loadAudios_array_ok (l : list string) (w : World) :
  resourceHost (this w) ≠ "" → directory (this w) ≠ "" →
  loadAudios_array l w
  = (Returns (mkPromise (LoadAll (load_args (this w) l)) (λ _, id)),
     log_call (LoadAll (load_args (this w) l)) w).
Proof.
  intros Hh Hd. unfold loadAudios_array. run_monad.
  rewrite checkHostAndDir_ok by done. run_monad.
  rewrite mapM_urlOf_ok by done. by run_monad.
Qed.

Lemma loadAudios_host (fs : Filenames) (w : World) :
  resourceHost (this w) = "" → loadAudios fs w = (Throws host_error, w).
Proof.
  intros Hh. destruct fs; unfold loadAudios, loadAudios_array; run_monad;
    by rewrite checkHostAndDir_host.
Qed.

Lemma loadAudios_dir (fs : Filenames) (w : World) :
  resourceHost (this w) ≠ "" → directory (this w) = "" →
  loadAudios fs w = (Throws directory_error, w).
Proof.
  intros Hh Hd. destruct fs; unfold loadAudios, loadAudios_array; run_monad;
    by rewrite checkHostAndDir_dir.
Qed.

Lemma record_get_skip (k v : string) (r : list (string * string))
    (l : list string) :
  k ∉ l → omap (record_get ((k, v) :: r)) l = omap (record_get r) l.
Proof.
  induction l as [|k' l IH]; [done|].
  rewrite not_elem_of_cons. intros [Hne Hl].
  cbn. rewrite decide_False by done. specialize (IH Hl). cbn in IH.
  by rewrite IH.
Qed.

(** On a record whose keys are distinct, as those of an object are, the
    values read back key by key are the second components. *)
Lemma record_get_values (r : list (string * string)) :
  NoDup r.*1 → omap (record_get r) r.*1 = r.*2.
Proof.
  induction r as [|[k v] r IH]; [done|].
  rewrite fmap_cons, NoDup_cons. intros [Hk Hnd]. cbn.
  rewrite decide_True by done. f_equal.
  etrans; [|exact (IH Hnd)]. by apply record_get_skip.
Qed.

Lemma loadAudios_record_ok (r : list (string * string)) (w : World) :
  resourceHost (this w) ≠ "" → directory (this w) ≠ "" →
  let args := load_args (this w) (omap (record_get r) r.*1) in
  loadAudios (FRecord r) w
  = (Returns (mkPromise (LoadAll args)
                (λ clips w', set_this (store_clips r.*1 clips) w')),
     log_call (LoadAll args) w).
Proof.
  intros Hh Hd args. unfold loadAudios. run_monad.
  rewrite checkHostAndDir_ok by done. run_monad.
  rewrite loadAudios_array_ok by done. by run_monad.
Qed.
End Loading.

(** ** Playing audio *)

#[global] Instance audio_prefix_inj : Inj (=) (=) (String.append "_$audio").
Proof. intros a b Heq. cbn in Heq. by simplify_eq. Qed.

Section Playback.
Context `{Capitalize} `{AudioEngine}.

(** The lookup of [playAudio] and the store of [loadAudio] meet exactly
    when capitalizing the key a second time changes nothing. *)
Lemma slot_capitalize (k : string) :
  slot (capitalize k) = slot k ↔ capitalize (capitalize k) = capitalize k.
Proof.
  unfold slot. split; [apply (inj _)|by intros ->].
Qed.

Lemma playAudio_None (n : string) (w : World) :
  props (this w) !! slot (capitalize n) = None →
  playAudio n w = (Returns (-1), w).
Proof.
  unfold slot, playAudio. intros Hnone. run_monad. by rewrite Hnone.
Qed.

Lemma playAudio_Some (n : string) (c : AudioClip) (w : World) :
  props (this w) !! slot (capitalize n) = Some c →
  playAudio n w = (Returns (audioEngine_play (calls w) c), log_call (Play c) w).
Proof.
  unfold slot, playAudio. intros Hsome. run_monad. rewrite Hsome. by run_monad.
Qed.

(** [playAudio] always returns; it leaves the component alone and at most
    adds one [Play] to the engine's history. *)
Lemma playAudio_cases (n : string) (w : World) :
  playAudio n w = (Returns (-1), w) ∨
  ∃ c, playAudio n w = (Returns (audioEngine_play (calls w) c), log_call (Play c) w).
Proof.
  destruct (props (this w) !! slot (capitalize n)) as [c|] eqn:Hp.
  - right. exists c. by apply playAudio_Some.
  - left. by apply playAudio_None.
Qed.

Lemma store_clips_other (keys : list string) (clips : list AudioClip)
    (g : GameBase) (name : string) :
  name ∉ slot <$> keys →
  props (store_clips keys clips g) !! name = props g !! name.
Proof.
  revert keys g. induction clips as [|c clips IH]; intros [|k keys] g Hn; try done.
  rewrite fmap_cons, not_elem_of_cons in Hn. destruct Hn as [Hne Hn].
  cbn [store_clips]. rewrite (IH _ _ Hn). cbn. by rewrite lookup_insert_ne.
Qed.

Lemma store_clips_lookup (keys : list string) (clips : list AudioClip)
    (g : GameBase) (i : nat) (k : string) (c : AudioClip) :
  NoDup (slot <$> keys) → keys !! i = Some k → clips !! i = Some c →
  props (store_clips keys clips g) !! slot k = Some c.
Proof.
  revert keys g i.
  induction clips as [|c' clips IH]; intros [|k' keys] g i Hnd Hk Hc; try done.
  rewrite fmap_cons, NoDup_cons in Hnd. destruct Hnd as [Hk' Hnd].
  cbn [store_clips]. destruct i as [|i]; simplify_eq/=.
  - rewrite store_clips_other by done. cbn. by rewrite lookup_insert_eq.
  - by eapply IH.
Qed.

(** The recursive call in the source is the method itself. *)
Lemma playAudioPromise_unfold :
  playAudioPromise
  = playAudioPromise_body (λ audioName, playAudioPromise audioName None None None).
Proof. reflexivity. Qed.
End Playback.

Section Methods.
Context `{Capitalize} `{ParseQuery} `{AudioEngine}.

(** One step of [playAudioPromise], given what [playAudio] answered. *)
Lemma playAudioPromise_run (a : string) (t : option bool) (k e : option string)
    (w w' : World) (id : Z) :
  playAudio (default a k) w = (Returns id, w') →
  playAudioPromise a t k e w =
  if id <? 0 then
    if negb (default false t) then (Returns (Rejected (a +:+ " not found!")), w')
    else
      match loadAudio (a +:+ default ".mp3" e) (Some (default a k)) w' with
      | (Returns p, w1) =>
          (Returns (Chained p (playAudioPromise a None None None)), w1)
      | (Throws err, w1) => (Throws err, w1)
      end
  else (Returns (Finished id), log_call (SetFinishCallback id) w').
Proof.
  intros Hplay. rewrite playAudioPromise_unfold. unfold playAudioPromise_body.
  rewrite bind_run, Hplay. cbv beta iota.
  destruct (id <? 0); [|by run_monad].
  destruct (negb (default false t)); [done|].
  rewrite bind_run. by destruct (loadAudio _ _ w') as [[p|err] w1].
Qed.

Lemma loadDragonBones_ok (n : string) (node : Node) (a m : string)
    (t : option Z) (w : World) :
  resourceHost (this w) ≠ "" → directory (this w) ≠ "" →
  let base := λ file, resourceHost (this w) +:+ "/" +:+ directory (this w)
                      +:+ "/" +:+ n +:+ file in
  let opts := {| skeUrl := base "_ske.json"; texJsonUrl := base "_tex.json";
                 texUrl := base "_tex.png"; armatureName := a;
                 animationName := m; times := default (-1) t |} in
  loadDragonBones n node a m t w
  = (Returns (mkPromise (LoadDragonBone opts node) (λ _, id)),
     log_call (LoadDragonBone opts node) w).
Proof.
  intros Hh Hd base opts. unfold loadDragonBones.
  rewrite bind_run, urlOf_ok by done. cbv beta iota.
  rewrite bind_run, urlOf_ok by done. cbv beta iota.
  rewrite bind_run, urlOf_ok by done. cbv beta iota.
  by run_monad.
Qed.

Lemma loadDragonBones_host (n : string) (node : Node) (a m : string)
    (t : option Z) (w : World) :
  resourceHost (this w) = "" →
  loadDragonBones n node a m t w = (Throws host_error, w).
Proof.
  intros Hh. unfold loadDragonBones. by rewrite bind_run, urlOf_host.
Qed.

Lemma loadDragonBones_dir (n : string) (node : Node) (a m : string)
    (t : option Z) (w : World) :
  resourceHost (this w) ≠ "" → directory (this w) = "" →
  loadDragonBones n node a m t w = (Throws directory_error, w).
Proof.
  intros Hh Hd. unfold loadDragonBones. by rewrite bind_run, urlOf_dir.
Qed.
End Methods.

(** ** Which errors can be thrown *)

Section Errors.
Context `{Capitalize} `{ParseQuery} `{AudioEngine}.

Lemma guarded_intro {A} (m : M A) (w : World) :
  (resourceHost (this w) = "" → m w = (Throws host_error, w)) →
  (resourceHost (this w) ≠ "" → directory (this w) = "" →
     m w = (Throws directory_error, w)) →
  (resourceHost (this w) ≠ "" → directory (this w) ≠ "" →
     ∃ a w', m w = (Returns a, w')) →
  guarded m w.
Proof.
  intros Hhost Hdir Hok. unfold guarded, thrown, run. split_and!.
  - destruct (decide (resourceHost (this w) = "")) as [Hh|Hh].
    { rewrite (Hhost Hh). cbn. split; [by left|eauto]. }
    destruct (decide (directory (this w) = "")) as [Hd|Hd].
    { rewrite (Hdir Hh Hd). cbn. split; [by right|eauto]. }
    destruct (Hok Hh Hd) as (a & w' & ->). cbn. split.
    + by intros [? ?].
    + tauto.
  - intros Hh. by rewrite (Hhost Hh).
  - intros Hh Hd. by rewrite (Hdir Hh Hd).
Qed.

Lemma guarded_thrown {A} (m : M A) (w : World) (e : Error) :
  guarded m w → thrown (run m w) = Some e →
  e = host_error ∨ e = directory_error.
Proof.
  intros (Hiff & Hhost & Hdir) He.
  destruct (decide (resourceHost (this w) = "")) as [Hh|Hh].
  { left. rewrite (Hhost Hh) in He. by simplify_eq. }
  destruct (decide (directory (this w) = "")) as [Hd|Hd].
  { right. rewrite (Hdir Hh Hd) in He. by simplify_eq. }
  assert (is_Some (thrown (run m w))) as Hs by (rewrite He; eauto).
  apply Hiff in Hs. tauto.
Qed.

Lemma urlOf_guarded (f : string) (d : option string) (w : World) :
  guarded (urlOf f d) w.
Proof.
  apply guarded_intro; eauto using urlOf_host, urlOf_dir, urlOf_ok.
Qed.

Lemma loadAudio_guarded (f : string) (key : option string) (w : World) :
  guarded (loadAudio f key) w.
Proof.
  apply guarded_intro; eauto using loadAudio_host, loadAudio_dir.
  intros Hh Hd. rewrite loadAudio_ok by done. eauto.
Qed.

Lemma loadAudios_guarded (fs : Filenames) (w : World) :
  guarded (loadAudios fs) w.
Proof.
  apply guarded_intro; eauto using loadAudios_host, loadAudios_dir.
  intros Hh Hd. destruct fs as [l|r].
  - cbn [loadAudios]. rewrite loadAudios_array_ok by done. eauto.
  - rewrite loadAudios_record_ok by done. eauto.
Qed.

Lemma loadDragonBones_guarded (n : string) (node : Node) (a m : string)
    (t : option Z) (w : World) :
  guarded (loadDragonBones n node a m t) w.
Proof.
  apply guarded_intro;
    eauto using loadDragonBones_host, loadDragonBones_dir.
  intros Hh Hd. rewrite loadDragonBones_ok by done. eauto.
Qed.

Lemma playAudio_returns (n : string) (w : World) :
  ∃ id w', playAudio n w = (Returns id, w').
Proof. destruct (playAudio_cases n w) as [Hp|[c Hp]]; eauto. Qed.

Lemma playAudioPromise_thrown (a : string) (t : option bool)
    (k e : option string) (w : World) (err : Error) :
  thrown (run (playAudioPromise a t k e) w) = Some err →
  err = host_error ∨ err = directory_error.
Proof.
  destruct (playAudio_returns (default a k) w) as (id & w' & Hplay).
  unfold run. rewrite (playAudioPromise_run _ _ _ _ _ _ _ Hplay).
  destruct (id <? 0); [|done].
  destruct (negb (default false t)); [done|].
  intros Hthrown.
  apply (guarded_thrown
           (loadAudio (a +:+ default ".mp3" e) (Some (default a k))) w');
    [apply loadAudio_guarded|].
  unfold run.
  by destruct (loadAudio (a +:+ default ".mp3" e) (Some (default a k)) w')
    as [[p|err'] w1].
Qed.
End Errors.

(** ** Loading, then playing *)

Section RoundTrip.
Context `{Capitalize} `{AudioEngine}.


(** The same for a record of keys, which must not collide once
    capitalized: [forEach] stores in order and a later key would take the
    slot of an earlier one. *)
Lemma loadAudios_then_playAudio (r : list (string * string))
    (clips : list AudioClip) (w : World) :
  resourceHost (this w) ≠ "" → directory (this w) ≠ "" →
  NoDup (capitalize <$> r.*1) →
  (∀ k, k ∈ r.*1 → capitalize (capitalize k) = capitalize k) →
  loadAudios_stores_and_plays r clips w.
Proof.
  intros Hh Hd Hnd Hidem. unfold loadAudios_stores_and_plays, run.
  rewrite loadAudios_record_ok by done. eexists _, _. split; [reflexivity|].
  split.
  - cbn. do 2 f_equal. rewrite record_get_values by eauto using NoDup_fmap_1.
    unfold load_args. by rewrite <- list_fmap_compose.
  - intros i k c Hi Hc. cbn [on_resolve].
    assert (props (store_clips r.*1 clips
                     (this (log_call (LoadAll (load_args (this w)
                                (omap (record_get r) r.*1))) w)))
            !! slot k = Some c) as Hstored.
    { eapply store_clips_lookup; [|done..].
      change (slot <$> r.*1) with ((String.append "_$audio" ∘ capitalize) <$> r.*1).
      rewrite list_fmap_compose. by apply (NoDup_fmap_2 _). }
    split; [done|]. apply playAudio_Some.
    rewrite (proj2 (slot_capitalize k)); [done|].
    apply Hidem. by eapply list_elem_of_lookup_2.
Qed.
End RoundTrip.

(** ** The modelled [capitalize] *)

Lemma upper_ascii_idem (c : ascii) : upper_ascii (upper_ascii c) = upper_ascii c.
Proof. destruct c as [[] [] [] [] [] [] [] []]; reflexivity. Qed.

Lemma first_upper_idem (s : string) : first_upper (first_upper s) = first_upper s.
Proof. destruct s as [|c s]; [done|]. cbn. by rewrite upper_ascii_idem. Qed.

(** * The specification, statement by statement *)

(** ** Resolving a resource path *)

(** C1: when resourceHost and directory are both non-empty, urlOf(f, d)
    returns exactly resourceHost + "/" + d + "/" + f for every filename f and
    directory string d, and urlOf(f) with the directory omitted uses the
    component's directory property for d. *)
Theorem urlOf_host_dir_filename (f d : string) (w : World) :
  resourceHost (this w) ≠ "" → directory (this w) ≠ "" →
  run (urlOf f (Some d)) w
  = (Returns (resourceHost (this w) +:+ "/" +:+ d +:+ "/" +:+ f), w) ∧
  run (urlOf f None) w
  = (Returns (resourceHost (this w) +:+ "/" +:+ directory (this w) +:+ "/" +:+ f), w).
Proof.
  intros Hh Hd. unfold run. by rewrite !urlOf_ok.
Qed.

Lemma urlOf_host_dir_filename_witness :
  run (urlOf "red.mp3" (Some "sfx")) configured
  = (Returns "h/sfx/red.mp3", configured) ∧
  run (urlOf "red.mp3" None) configured = (Returns "h/d/red.mp3", configured).
Proof. apply (urlOf_host_dir_filename "red.mp3" "sfx" configured); done. Defined.

(** ** The configuration errors *)

(** C2: urlOf, loadAudio and loadAudios throw exactly when resourceHost or
    directory is the empty string: the resource-host error when
    resourceHost is empty, otherwise the directory error when directory is
    empty, and nothing when both are set.  No call to the component throws
    any other error. *)
Theorem configuration_errors `{Capitalize} `{ParseQuery} `{AudioEngine}
    (w : World) (f : string) (d key : option string) (fs : Filenames) :
  guarded (urlOf f d) w ∧
  guarded (loadAudio f key) w ∧
  guarded (loadAudios fs) w ∧
  ∀ (i : Invocation) (e : Error),
    thrown_by i w = Some e → e = host_error ∨ e = directory_error.
Proof.
  split_and!; [apply urlOf_guarded|apply loadAudio_guarded|apply loadAudios_guarded|].
  intros i e.
  destruct i as [|f' k'|fs'|n|a t k' e'|n node a m t|h|d'|f' d']; cbn [thrown_by].
  - unfold thrown, run, onLoad. run_monad.
    by destruct (collisionManager _).
  - apply guarded_thrown, loadAudio_guarded.
  - apply guarded_thrown, loadAudios_guarded.
  - unfold thrown, run.
    by destruct (playAudio_cases n w) as [->|[c ->]].
  - apply playAudioPromise_thrown.
  - apply guarded_thrown, loadDragonBones_guarded.
  - done.
  - done.
  - apply guarded_thrown, urlOf_guarded.
Qed.

Lemma configuration_errors_witness :
  thrown (run (urlOf "red.mp3" None) unconfigured) = Some host_error ∧
  thrown (run (urlOf "red.mp3" None) (set_this (set_resourceHost "h") unconfigured))
  = Some directory_error.
Proof.
  split.
  - destruct (@configuration_errors first_upper no_query counting_engine
                unconfigured "red.mp3" None None (FArray []))
      as [(_ & Hhost & _) _].
    apply Hhost. reflexivity.
  - destruct (@configuration_errors first_upper no_query counting_engine
                (set_this (set_resourceHost "h") unconfigured)
                "red.mp3" None None (FArray []))
      as [(_ & _ & Hdir) _].
    apply Hdir; [discriminate|reflexivity].
Defined.

(** On the component as constructed both properties are empty, and the host
    is checked first: the error is the resource-host one. *)
Lemma explicit_dir_directory_error_fails :
  ¬ explicit_dir_directory_error "red.mp3" "sfx" unconfigured.
Proof.
  intros Hclaim. specialize (Hclaim ltac:(done) eq_refl).
  unfold run in Hclaim. rewrite urlOf_host in Hclaim by done. discriminate Hclaim.
Qed.

(** C10, amended: for every filename f and every explicit directory argument
    d, urlOf(f, d) throws a configuration error whenever the component's
    directory property is empty, the directory error when resourceHost is
    non-empty and the resource-host error when resourceHost is empty too;
    the guard never looks at the argument. *)
Theorem urlOf_explicit_dir_guard (f d : string) (w : World) :
  directory (this w) = "" →
  run (urlOf f (Some d)) w
  = (Throws (if truthy (resourceHost (this w)) then directory_error else host_error),
     w).
Proof.
  intros Hd. unfold run.
  destruct (decide (resourceHost (this w) = "")) as [Hh|Hh].
  - by rewrite urlOf_host, truthy_false.
  - by rewrite urlOf_dir, truthy_true.
Qed.

Lemma urlOf_explicit_dir_guard_witness :
  run (urlOf "red.mp3" (Some "sfx"))
      (set_this (set_resourceHost "h") unconfigured)
  = (Throws directory_error, set_this (set_resourceHost "h") unconfigured).
Proof.
  apply (urlOf_explicit_dir_guard "red.mp3" "sfx"
           (set_this (set_resourceHost "h") unconfigured)).
  reflexivity.
Defined.

(** ** The lifecycle hook and the setters *)

(** C6: after onLoad, a collision manager the director returns has its
    enabled flag equal to collisionSystem and its enabledDebugDraw flag
    equal to debugCollision; when the director returns none, onLoad
    completes all the same and there is still none; and _query is the
    parse of the location's query string. *)
Theorem onLoad_wires_collision_and_query `{ParseQuery} (w : World) :
  ∃ w', run onLoad w = (Returns tt, w') ∧
    _query (this w') = parseQuery (location_search w) ∧
    collisionSystem (this w') = collisionSystem (this w) ∧
    debugCollision (this w') = debugCollision (this w) ∧
    match collisionManager w with
    | Some _ =>
        collisionManager w'
        = Some {| enabled := collisionSystem (this w');
                  enabledDebugDraw := debugCollision (this w') |}
    | None => collisionManager w' = None
    end.
Proof.
  unfold run, onLoad. run_monad.
  destruct w as [g [cm|] search history]; cbn; eexists; split_and!; reflexivity.
Qed.

(** C8: setResourceHost(h) sets resourceHost to h, returns the component
    and changes nothing else; setDirectory(d) does the same for directory;
    and the two chain. *)
Theorem setters_frame (h d : string) (w : World) :
  (∃ w', run (setResourceHost h) w = (Returns (this w'), w') ∧
     resourceHost (this w') = h ∧ directory (this w') = directory (this w) ∧
     same_outside_config w w') ∧
  (∃ w', run (setDirectory d) w = (Returns (this w'), w') ∧
     directory (this w') = d ∧ resourceHost (this w') = resourceHost (this w) ∧
     same_outside_config w w') ∧
  (∃ w', run (setResourceHost h ≫= λ _, setDirectory d) w = (Returns (this w'), w') ∧
     resourceHost (this w') = h ∧ directory (this w') = d ∧
     same_outside_config w w').
Proof.
  unfold same_outside_config, setResourceHost, setDirectory.
  split_and!; run_monad; eexists; (split; [reflexivity|]); by cbn.
Qed.

(** ** Dragon bones *)

(** C7: with resourceHost and directory non-empty, loadDragonBones(n, node,
    a, m, t) hands the engine loader the node and an options object whose
    three urls are resourceHost/directory/n followed by _ske.json,
    _tex.json and _tex.png, with armatureName a, animationName m and times
    t, or -1 when t is omitted. *)
Theorem loadDragonBones_options (n : string) (node : Node) (a m : string)
    (t : option Z) (w : World) :
  resourceHost (this w) ≠ "" → directory (this w) ≠ "" →
  ∃ p opts,
    run (loadDragonBones n node a m t) w
    = (Returns p, log_call (LoadDragonBone opts node) w) ∧
    source p = LoadDragonBone opts node ∧
    skeUrl opts = resourceHost (this w) +:+ "/" +:+ directory (this w)
                  +:+ "/" +:+ n +:+ "_ske.json" ∧
    texJsonUrl opts = resourceHost (this w) +:+ "/" +:+ directory (this w)
                      +:+ "/" +:+ n +:+ "_tex.json" ∧
    texUrl opts = resourceHost (this w) +:+ "/" +:+ directory (this w)
                  +:+ "/" +:+ n +:+ "_tex.png" ∧
    armatureName opts = a ∧ animationName opts = m ∧
    times opts = match t with Some t' => t' | None => -1 end.
Proof.
  intros Hh Hd. unfold run. rewrite loadDragonBones_ok by done.
  eexists _, _. split; [reflexivity|]. split_and!; reflexivity.
Qed.

Lemma loadDragonBones_options_witness :
  ∃ p opts,
    run (loadDragonBones "hero" (mkNode 0) "arm" "walk" None) configured
    = (Returns p, log_call (LoadDragonBone opts (mkNode 0)) configured) ∧
    skeUrl opts = "h/d/hero_ske.json" ∧ times opts = -1.
Proof.
  destruct (loadDragonBones_options "hero" (mkNode 0) "arm" "walk" None configured)
    as (p & opts & Hrun & _ & Hske & _ & _ & _ & _ & Htimes); [discriminate..|].
  exists p, opts. split_and!; [exact Hrun|exact Hske|exact Htimes].
Defined.

(** ** Playing audio *)

(** C9: when no clip is stored under "_$audio" + capitalize(capitalize(n)),
    as is the case for every n on a fresh component, playAudio(n) returns
    -1, asks nothing of the audio engine and changes nothing. *)
Theorem playAudio_missing `{Capitalize} `{AudioEngine} (n : string) (w : World) :
  (props (this w) !! ("_$audio" +:+ capitalize (capitalize n)) = None →
     run (playAudio n) w = (Returns (-1), w)) ∧
  (this w = fresh → run (playAudio n) w = (Returns (-1), w)).
Proof.
  split.
  - apply playAudio_None.
  - intros Hfresh. apply playAudio_None. by rewrite Hfresh.
Qed.

Lemma playAudio_missing_witness :
  run (@playAudio first_upper counting_engine "red") unconfigured
  = (Returns (-1), unconfigured).
Proof.
  apply (@playAudio_missing first_upper counting_engine "red" unconfigured).
  reflexivity.
Defined.

(** On a component not yet configured, tryLoad = true throws before any
    load; and with the empty key the load is made but nothing is stored. *)
Lemma tryLoad_loads_under_key_fails :
  ¬ @tryLoad_loads_under_key first_upper counting_engine "red" None None unconfigured ∧
  ¬ @tryLoad_loads_under_key first_upper counting_engine "red" (Some "") None configured.
Proof.
  split.
  - intros Hclaim.
    destruct (Hclaim (-1) unconfigured eq_refl ltac:(lia))
      as (p & next & w1 & Hrun & _).
    unfold run in Hrun.
    rewrite (@playAudioPromise_run first_upper counting_engine "red" (Some true)
               None None unconfigured unconfigured (-1) eq_refl) in Hrun.
    cbn [Z.ltb Z.compare default negb] in Hrun.
    rewrite loadAudio_host in Hrun by reflexivity. discriminate Hrun.
  - intros Hclaim.
    destruct (Hclaim (-1) configured eq_refl ltac:(lia))
      as (p & next & w1 & Hrun & _ & Hstored).
    unfold run in Hrun.
    rewrite (@playAudioPromise_run first_upper counting_engine "red" (Some true)
               (Some "") None configured configured (-1) eq_refl) in Hrun.
    cbn [Z.ltb Z.compare default negb] in Hrun.
    rewrite loadAudio_ok in Hrun by discriminate.
    injection Hrun as <- _ <-.
    specialize (Hstored (mkClip 1)). vm_compute in Hstored. discriminate Hstored.
Qed.

(** C5, amended: when playAudio(key) returns a negative id,
    playAudioPromise(audioName, false), like playAudioPromise(audioName),
    returns a promise rejected with audioName + " not found!", having asked
    the loader nothing and stored nothing.  With tryLoad = true and
    resourceHost and directory set, it asks the loader for
    urlOf(audioName + ext) and returns that promise chained with the retry
    playAudioPromise(audioName); when the load resolves the clip is stored
    under the key if the key is non-empty and nowhere otherwise.  With
    tryLoad = true and resourceHost or directory empty it throws the
    configuration error and asks the loader nothing. *)
Theorem playAudioPromise_not_found `{Capitalize} `{AudioEngine}
    (a : string) (key ext : option string) (w w' : World) (id : Z) :
  run (playAudio (default a key)) w = (Returns id, w') → id < 0 →
  (this w' = this w ∧ (w' = w ∨ ∃ clip, w' = log_call (Play clip) w)) ∧
  run (playAudioPromise a (Some false) key ext) w
  = (Returns (Rejected (a +:+ " not found!")), w') ∧
  run (playAudioPromise a None key ext) w
  = (Returns (Rejected (a +:+ " not found!")), w') ∧
  (resourceHost (this w) ≠ "" → directory (this w) ≠ "" →
     ∃ p url,
       url = resourceHost (this w) +:+ "/" +:+ directory (this w) +:+ "/"
             +:+ a +:+ default ".mp3" ext ∧
       run (playAudioPromise a (Some true) key ext) w
       = (Returns (Chained p (playAudioPromise a None None None)),
          log_call (Load url) w') ∧
       source p = Load url ∧
       ∀ c w1,
         (default a key ≠ "" →
            props (this (on_resolve p c w1)) !! slot (default a key) = Some c) ∧
         (default a key = "" → on_resolve p c w1 = w1)) ∧
  (resourceHost (this w) = "" ∨ directory (this w) = "" →
     ∃ e, run (playAudioPromise a (Some true) key ext) w = (Throws e, w') ∧
          (e = host_error ∨ e = directory_error)).
Proof.
  unfold run. intros Hplay Hneg.
  assert (this w' = this w ∧ (w' = w ∨ ∃ clip, w' = log_call (Play clip) w))
    as [Hthis Hw'].
  { destruct (playAudio_cases (default a key) w) as [Hp|[c Hp]];
      rewrite Hp in Hplay; injection Hplay as <- <-; eauto. }
  apply Z.ltb_lt in Hneg.
  rewrite !(playAudioPromise_run _ _ _ _ _ _ _ Hplay), Hneg. cbn [default negb].
  split_and!; [done..| |].
  - intros Hh Hd. rewrite <- Hthis in Hh, Hd.
    rewrite loadAudio_ok by done. rewrite Hthis.
    eexists _, _. split_and!; [reflexivity..|].
    intros c w1. cbn. split.
    + intros Hk. rewrite truthy_true by done. cbn. apply lookup_insert_eq.
    + intros Hk. by rewrite truthy_false.
  - rewrite <- Hthis. intros [Hh|Hd].
    + rewrite loadAudio_host by done. eauto.
    + destruct (decide (resourceHost (this w') = "")) as [Hh|Hh].
      * rewrite loadAudio_host by done. eauto.
      * rewrite loadAudio_dir by done. eauto.
Qed.

Lemma playAudioPromise_not_found_witness :
  run (@playAudioPromise first_upper counting_engine "red" None None None) configured
  = (Returns (Rejected "red not found!"), configured) ∧
  ∃ p,
    run (@playAudioPromise first_upper counting_engine "red" (Some true) None None)
        configured
    = (Returns (Chained p (@playAudioPromise first_upper counting_engine "red"
                             None None None)),
       log_call (Load "h/d/red.mp3") configured).
Proof.
  destruct (@playAudioPromise_not_found first_upper counting_engine
              "red" None None configured configured (-1) eq_refl ltac:(lia))
    as (_ & _ & Hnone & Hload & _).
  split; [exact Hnone|].
  destruct Hload as (p & url & -> & Hrun & _); [discriminate..|].
  exists p. exact Hrun.
Defined.

(** ** Loading, then playing *)

Section FirstUpper.
#[local] Existing Instance first_upper.
Context `{AudioEngine}.

(** C4, amended: on a component with resourceHost and directory set, for
    every record r whose keys are still pairwise distinct once
    capitalized, loadAudios(r) asks the loader for urlOf(r[k]), key by key
    in enumeration order, and once the promise has resolved the clip at
    position i is stored under "_$audio" + capitalize(k_i), so that
    playAudio(k_i) plays the clip loaded from r[k_i]. *)
Theorem loadAudios_record_roundtrip (r : list (string * string))
    (clips : list AudioClip) (w : World) :
  resourceHost (this w) ≠ "" → directory (this w) ≠ "" →
  NoDup (capitalize <$> r.*1) →
  loadAudios_stores_and_plays r clips w.
Proof.
  intros Hh Hd Hnd. apply loadAudios_then_playAudio; try done.
  intros k _. apply first_upper_idem.
Qed.

End FirstUpper.




(** Two keys that differ only in the case of their first letter share a
    slot, and the second clip takes it: playAudio("red") plays the clip
    loaded for "Red".  And on a component not yet configured nothing is
    loaded at all. *)
Lemma loadAudios_stores_and_plays_fails :
  ¬ @loadAudios_stores_and_plays first_upper counting_engine
      [("red", "red.mp3"); ("Red", "Red.mp3")] [mkClip 1; mkClip 2] configured ∧
  ¬ @loadAudios_stores_and_plays first_upper counting_engine
      [("red", "red.mp3")] [mkClip 1] unconfigured.
Proof.
  split.
  - intros (p & w1 & Hrun & _ & Hall). unfold run in Hrun.
    rewrite loadAudios_record_ok in Hrun by discriminate.
    injection Hrun as <- <-.
    destruct (Hall 0%nat "red" (mkClip 1) eq_refl eq_refl) as [Hstored _].
    vm_compute in Hstored. discriminate Hstored.
  - intros (p & w1 & Hrun & _). unfold run in Hrun.
    rewrite loadAudios_host in Hrun by reflexivity. discriminate Hrun.
Qed.

Lemma loadAudios_record_roundtrip_witness :
  @loadAudios_stores_and_plays first_upper counting_engine
    [("red", "red.mp3"); ("green", "green.mp3")] [mkClip 1; mkClip 2] configured.
Proof.
  apply (@loadAudios_record_roundtrip counting_engine
           [("red", "red.mp3"); ("green", "green.mp3")] [mkClip 1; mkClip 2]
           configured); [discriminate|discriminate|].
  apply NoDup_cons. split.
  - intros Hin. apply list_elem_of_singleton in Hin. discriminate Hin.
  - apply NoDup_singleton.
Defined.

(** * Further properties of the component *)

(** ** What a call does to the world before it returns *)

Section Frame.
Context `{Capitalize} `{ParseQuery} `{AudioEngine}.

Lemma prefix_log_call (c : Call) (w w' : World) :
  calls w `prefix_of` calls w' → calls w `prefix_of` calls (log_call c w').
Proof. intros Hp. cbn. by apply prefix_app_r. Qed.

(** The loader part of [playAudioPromise], run after [playAudio]. *)
Lemma loadAudio_world (f : string) (key : option string) (w : World) :
  (∃ p url, loadAudio f key w = (Returns p, log_call (Load url) w)) ∨
  (∃ e, loadAudio f key w = (Throws e, w)).
Proof.
  destruct (checkHostAndDir_cases w) as [(Hh & Hd & _)|[(Hh & _)|(Hh & Hd & _)]].
  - left. rewrite loadAudio_ok by done. eauto.
  - right. rewrite loadAudio_host by done. eauto.
  - right. rewrite loadAudio_dir by done. eauto.
Qed.

Lemma loadAudios_world (fs : Filenames) (w : World) :
  (∃ p args, loadAudios fs w = (Returns p, log_call (LoadAll args) w)) ∨
  (∃ e, loadAudios fs w = (Throws e, w)).
Proof.
  destruct (checkHostAndDir_cases w) as [(Hh & Hd & _)|[(Hh & _)|(Hh & Hd & _)]].
  - left. destruct fs as [l|r].
    + cbn [loadAudios]. rewrite loadAudios_array_ok by done. eauto.
    + rewrite loadAudios_record_ok by done. eauto.
  - right. rewrite loadAudios_host by done. eauto.
  - right. rewrite loadAudios_dir by done. eauto.
Qed.

Lemma loadDragonBones_world (n : string) (node : Node) (a m : string)
    (t : option Z) (w : World) :
  (∃ p opts, loadDragonBones n node a m t w
             = (Returns p, log_call (LoadDragonBone opts node) w)) ∨
  (∃ e, loadDragonBones n node a m t w = (Throws e, w)).
Proof.
  destruct (checkHostAndDir_cases w) as [(Hh & Hd & _)|[(Hh & _)|(Hh & Hd & _)]].
  - left. rewrite loadDragonBones_ok by done. eauto.
  - right. rewrite loadDragonBones_host by done. eauto.
  - right. rewrite loadDragonBones_dir by done. eauto.
Qed.

Lemma urlOf_world (f : string) (d : option string) (w : World) :
  (∃ url, urlOf f d w = (Returns url, w)) ∨ (∃ e, urlOf f d w = (Throws e, w)).
Proof.
  destruct (checkHostAndDir_cases w) as [(Hh & Hd & _)|[(Hh & _)|(Hh & Hd & _)]].
  - left. rewrite urlOf_ok by done. eauto.
  - right. rewrite urlOf_host by done. eauto.
  - right. rewrite urlOf_dir by done. eauto.
Qed.

(** The worlds [playAudioPromise] can leave: the one [playAudio] left,
    with at most a finish callback or a load request added. *)
Lemma playAudioPromise_world (a : string) (t : option bool) (k e : option string)
    (w : World) :
  ∃ w0, (w0 = w ∨ ∃ clip, w0 = log_call (Play clip) w) ∧
    ((∃ r, playAudioPromise a t k e w = (Returns r, w0)) ∨
     (∃ id, playAudioPromise a t k e w
            = (Returns (Finished id), log_call (SetFinishCallback id) w0)) ∨
     (∃ p url, playAudioPromise a t k e w
               = (Returns (Chained p (playAudioPromise a None None None)),
                  log_call (Load url) w0)) ∨
     (∃ err, playAudioPromise a t k e w = (Throws err, w0))).
Proof.
  destruct (playAudio_cases (default a k) w) as [Hp|[c Hp]];
    rewrite (playAudioPromise_run _ _ _ _ _ _ _ Hp).
  - exists w. split; [by left|]. change (-1 <? 0) with true. cbv iota.
    destruct (negb (default false t)); [eauto 10|].
    destruct (loadAudio_world (a +:+ default ".mp3" e) (Some (default a k)) w)
      as [(p & url & ->)|(err & ->)]; eauto 10.
  - exists (log_call (Play c) w). split; [eauto|].
    destruct (audioEngine_play (calls w) c <? 0); [|eauto 10].
    destruct (negb (default false t)); [eauto 10|].
    destruct (loadAudio_world (a +:+ default ".mp3" e) (Some (default a k))
                (log_call (Play c) w))
      as [(p & url & ->)|(err & ->)]; eauto 10.
Qed.

(** Everything a call can do to the world before it returns, in one
    statement. *)
Lemma world_after_frame (i : Invocation) (w : World) :
  props (this (world_after i w)) = props (this w) ∧
  location_search (world_after i w) = location_search w ∧
  calls w `prefix_of` calls (world_after i w) ∧
  match i with
  | ISetResourceHost _ => True
  | _ => resourceHost (this (world_after i w)) = resourceHost (this w)
  end ∧
  match i with
  | ISetDirectory _ => True
  | _ => directory (this (world_after i w)) = directory (this w)
  end ∧
  match i with
  | IOnLoad => True
  | _ => collisionManager (world_after i w) = collisionManager w ∧
         _query (this (world_after i w)) = _query (this w) ∧
         _env (this (world_after i w)) = _env (this w)
  end.
Proof.
  destruct i as [|f k|fs|n|a t k e|n node a m t|h|d|f d]; cbn [world_after]; unfold run.
  - unfold onLoad. run_monad. destruct w as [g [cm|] search history]; by cbn.
  - destruct (loadAudio_world f k w) as [(p & url & ->)|(e & ->)]; cbn;
      split_and!; try done; by apply prefix_app_r.
  - destruct (loadAudios_world fs w) as [(p & args & ->)|(e & ->)]; cbn;
      split_and!; try done; by apply prefix_app_r.
  - destruct (playAudio_cases n w) as [->|[c ->]]; cbn;
      split_and!; try done; by apply prefix_app_r.
  - destruct (playAudioPromise_world a t k e w)
      as (w0 & Hw0 & [(r & ->)|[(id & ->)|[(p & url & ->)|(err & ->)]]]);
      destruct Hw0 as [->|[clip ->]]; cbn; split_and!; try done;
      try (by apply prefix_app_r);
      rewrite <- (assoc_L (++)); by apply prefix_app_r.
  - destruct (loadDragonBones_world n node a m t w) as [(p & opts & ->)|(e & ->)];
      cbn; split_and!; try done; by apply prefix_app_r.
  - unfold setResourceHost. run_monad. by cbn.
  - unfold setDirectory. run_monad. by cbn.
  - destruct (urlOf_world f d w) as [(url & ->)|(e & ->)]; by cbn.
Qed.
End Frame.

(** X1: none of onLoad, loadAudio, loadAudios, playAudio, playAudioPromise,
    loadDragonBones, the setters and urlOf stores or drops a clip before it
    returns: the clips of the component change only when a load resolves.
    Nor does a call touch the location; and the log of engine calls only
    grows. *)
Theorem calls_store_nothing `{Capitalize} `{ParseQuery} `{AudioEngine}
    (i : Invocation) (w : World) :
  props (this (world_after i w)) = props (this w) ∧
  location_search (world_after i w) = location_search w ∧
  calls w `prefix_of` calls (world_after i w).
Proof.
  destruct (world_after_frame i w) as (Hp & Hl & Hc & _). done.
Qed.

(** X2: resourceHost changes only through setResourceHost and directory
    only through setDirectory; the collision manager, _query and _env only
    through onLoad. *)
Theorem configuration_changes_only_by_setters `{Capitalize} `{ParseQuery}
    `{AudioEngine} (i : Invocation) (w : World) :
  ((∀ h, i ≠ ISetResourceHost h) →
     resourceHost (this (world_after i w)) = resourceHost (this w)) ∧
  ((∀ d, i ≠ ISetDirectory d) →
     directory (this (world_after i w)) = directory (this w)) ∧
  (i ≠ IOnLoad →
     collisionManager (world_after i w) = collisionManager w ∧
     _query (this (world_after i w)) = _query (this w) ∧
     _env (this (world_after i w)) = _env (this w)).
Proof.
  destruct (world_after_frame i w) as (_ & _ & _ & Hh & Hd & Ho).
  split_and!.
  - intros Hne. destruct i; try done. by destruct (Hne host).
  - intros Hne. destruct i; try done. by destruct (Hne dir).
  - intros Hne. by destruct i.
Qed.

Lemma configuration_changes_only_by_setters_witness :
  resourceHost (this (@world_after first_upper no_query counting_engine
                        (ILoadAudio "red.mp3" (Some "red")) configured)) = "h" ∧
  directory (this (@world_after first_upper no_query counting_engine
                     (ISetResourceHost "cdn") configured)) = "d".
Proof.
  split.
  - apply (@configuration_changes_only_by_setters first_upper no_query
             counting_engine (ILoadAudio "red.mp3" (Some "red")) configured).
    discriminate.
  - apply (@configuration_changes_only_by_setters first_upper no_query
             counting_engine (ISetResourceHost "cdn") configured).
    discriminate.
Defined.

(** X3: a call that throws leaves no trace.  The world is as it was, no
    request having reached the loader; only playAudioPromise may have
    played a clip before its load failed, and it too leaves the component
    as it was. *)
Theorem thrown_leaves_no_trace `{Capitalize} `{ParseQuery} `{AudioEngine}
    (i : Invocation) (w : World) (e : Error) :
  thrown_by i w = Some e →
  this (world_after i w) = this w ∧
  (world_after i w = w ∨
   ∃ a t k x clip, i = IPlayAudioPromise a t k x ∧
                   world_after i w = log_call (Play clip) w).
Proof.
  destruct i as [|f k|fs|n|a t k x|n node a m t|h|d|f d];
    cbn [thrown_by world_after]; unfold thrown, run.
  - unfold onLoad. run_monad. by destruct (collisionManager _).
  - by destruct (loadAudio_world f k w) as [(p & url & ->)|(e' & ->)]; cbn; eauto.
  - by destruct (loadAudios_world fs w) as [(p & args & ->)|(e' & ->)]; cbn; eauto.
  - by destruct (playAudio_cases n w) as [->|[c ->]].
  - destruct (playAudioPromise_world a t k x w)
      as (w0 & Hw0 & [(r & ->)|[(id & ->)|[(p & url & ->)|(err & ->)]]]);
      try done.
    destruct Hw0 as [->|[clip ->]]; cbn; eauto 10.
  - by destruct (loadDragonBones_world n node a m t w)
      as [(p & opts & ->)|(e' & ->)]; cbn; eauto.
  - done.
  - done.
  - by destruct (urlOf_world f d w) as [(url & ->)|(e' & ->)]; cbn; eauto.
Qed.

Lemma thrown_leaves_no_trace_witness :
  @world_after first_upper no_query counting_engine
    (ILoadAudios (FArray ["red.mp3"])) unconfigured = unconfigured.
Proof.
  destruct (@thrown_leaves_no_trace first_upper no_query counting_engine
              (ILoadAudios (FArray ["red.mp3"])) unconfigured host_error eq_refl)
    as [_ [Hw|(a & t & k & x & clip & Hi & _)]]; [exact Hw|discriminate Hi].
Defined.

(** ** Clips: loading, overwriting, keeping *)

Section Clips.
Context `{Capitalize} `{AudioEngine}.

(** [playAudio(k)] plays [c] exactly when [c] is what the slot it looks up
    holds. *)
Lemma plays_iff (k : string) (c : AudioClip) (w : World) :
  plays k c w ↔ props (this w) !! slot (capitalize k) = Some c.
Proof.
  unfold plays, run. split; [|apply playAudio_Some].
  destruct (props (this w) !! slot (capitalize k)) as [c0|] eqn:Hp.
  - rewrite (playAudio_Some _ _ _ Hp). intros [= _ Hc].
    apply (inj (app (calls w))) in Hc. by simplify_eq.
  - rewrite (playAudio_None _ _ Hp). intros [= _ Hw].
    apply (f_equal (λ w', length (calls w'))) in Hw. cbn in Hw.
    rewrite length_app in Hw. cbn in Hw. lia.
Qed.

(** A returned [loadAudio] is the one of [loadAudio_ok]. *)
Lemma loadAudio_returned (f : string) (key : option string) (w w1 : World)
    (p : Promise AudioClip) :
  loadAudio f key w = (Returns p, w1) →
  resourceHost (this w) ≠ "" ∧ directory (this w) ≠ "" ∧
  p = audio_promise (resourceHost (this w) +:+ "/" +:+ directory (this w)
                     +:+ "/" +:+ f) (default "" key) ∧
  w1 = log_call (Load (resourceHost (this w) +:+ "/" +:+ directory (this w)
                       +:+ "/" +:+ f)) w.
Proof.
  intros Hload.
  destruct (checkHostAndDir_cases w) as [(Hh & Hd & _)|[(Hh & _)|(Hh & Hd & _)]].
  - rewrite loadAudio_ok in Hload by done. by injection Hload as <- <-.
  - by rewrite loadAudio_host in Hload.
  - by rewrite loadAudio_dir in Hload.
Qed.

Lemma loadAudios_record_returned (r : list (string * string)) (w w1 : World)
    (p : Promise (list AudioClip)) :
  loadAudios (FRecord r) w = (Returns p, w1) →
  let args := load_args (this w) (omap (record_get r) r.*1) in
  resourceHost (this w) ≠ "" ∧ directory (this w) ≠ "" ∧
  p = mkPromise (LoadAll args) (λ clips w', set_this (store_clips r.*1 clips) w') ∧
  w1 = log_call (LoadAll args) w.
Proof.
  intros Hload args.
  destruct (checkHostAndDir_cases w) as [(Hh & Hd & _)|[(Hh & _)|(Hh & Hd & _)]].
  - rewrite loadAudios_record_ok in Hload by done. by injection Hload as <- <-.
  - by rewrite loadAudios_host in Hload.
  - by rewrite loadAudios_dir in Hload.
Qed.

(** A slot no stored key maps to is left as it was; only the keys that got
    a clip count. *)
Lemma store_clips_untouched (keys : list string) (clips : list AudioClip)
    (g : GameBase) (name : string) :
  (∀ j k', keys !! j = Some k' → (j < length clips)%nat → slot k' ≠ name) →
  props (store_clips keys clips g) !! name = props g !! name.
Proof.
  revert keys g. induction clips as [|c clips IH]; intros [|k keys] g Hn; try done.
  cbn [store_clips]. rewrite IH.
  - cbn. apply lookup_insert_ne. apply (Hn 0%nat k); [done|cbn; lia].
  - intros j k' Hj Hlt. apply (Hn (S j) k'); [done|cbn; lia].
Qed.

(** Among the keys that share a slot, the last one to get a clip holds it. *)
Lemma store_clips_last (keys : list string) (clips : list AudioClip)
    (g : GameBase) (i : nat) (k : string) (c : AudioClip) :
  keys !! i = Some k → clips !! i = Some c →
  (∀ j k', (i < j)%nat → keys !! j = Some k' → (j < length clips)%nat →
     capitalize k' ≠ capitalize k) →
  props (store_clips keys clips g) !! slot k = Some c.
Proof.
  revert keys g i.
  induction clips as [|c' clips IH]; intros [|k' keys] g i Hk Hc Hlast; try done.
  cbn [store_clips]. destruct i as [|i]; simplify_eq/=.
  - rewrite store_clips_untouched; [cbn; apply lookup_insert_eq|].
    intros j k' Hj Hlt Heq. unfold slot in Heq. apply (inj _) in Heq.
    apply (Hlast (S j) k'); [lia|done|lia|done].
  - apply (IH keys _ i); [done..|].
    intros j k'' Hij Hj Hlt. apply (Hlast (S j) k''); [lia|done|lia].
Qed.
End Clips.

(** X4: loadAudio called without a key, or with the empty key, only
    preloads: when its promise resolves the world is as the call left it,
    so nothing becomes playable. *)
Theorem loadAudio_without_key_stores_nothing `{Capitalize}
    (f : string) (key : option string) (c : AudioClip) (w w1 : World)
    (p : Promise AudioClip) :
  key = None ∨ key = Some "" →
  run (loadAudio f key) w = (Returns p, w1) →
  on_resolve p c w1 = w1 ∧ this w1 = this w.
Proof.
  unfold run. intros Hkey Hload.
  apply loadAudio_returned in Hload as (_ & _ & -> & ->).
  by destruct Hkey as [-> | ->].
Qed.

Lemma loadAudio_without_key_stores_nothing_witness :
  ∃ p w1,
    run (@loadAudio first_upper "red.mp3" None) configured = (Returns p, w1) ∧
    on_resolve p (mkClip 1) w1 = w1.
Proof.
  eexists _, _. split; [reflexivity|].
  eapply (@loadAudio_without_key_stores_nothing first_upper "red.mp3" None
            (mkClip 1) configured); [by left|reflexivity].
Defined.

(** X5: a load under key k changes one slot only.  A clip that
    playAudio(k') played before is still what it plays after the load for k
    has resolved, unless the two keys meet in the same slot; and the
    configuration is left alone. *)
Theorem loadAudio_keeps_other_clips `{Capitalize} `{AudioEngine}
    (f k k' : string) (c c' : AudioClip) (w w1 : World) (p : Promise AudioClip) :
  run (loadAudio f (Some k)) w = (Returns p, w1) →
  capitalize k ≠ capitalize (capitalize k') →
  plays k' c' w →
  plays k' c' (on_resolve p c w1) ∧
  resourceHost (this (on_resolve p c w1)) = resourceHost (this w) ∧
  directory (this (on_resolve p c w1)) = directory (this w).
Proof.
  unfold run. intros Hload Hne Hplays.
  apply loadAudio_returned in Hload as (_ & _ & -> & ->).
  rewrite plays_iff in Hplays. rewrite plays_iff. cbn.
  destruct (truthy k); cbn; [|done].
  rewrite lookup_insert_ne; [done|].
  unfold slot. intros Heq. by apply (inj _) in Heq.
Qed.

Lemma loadAudio_keeps_other_clips_witness :
  ∃ p w1,
    run (@loadAudio first_upper "green.mp3" (Some "green"))
        (set_this (set_prop "_$audioRed" (mkClip 1)) configured)
    = (Returns p, w1) ∧
    @plays first_upper counting_engine "red" (mkClip 1) (on_resolve p (mkClip 2) w1).
Proof.
  eexists _, _. split; [reflexivity|].
  eapply (@loadAudio_keeps_other_clips first_upper counting_engine
            "green.mp3" "green" "red" (mkClip 2) (mkClip 1)
            (set_this (set_prop "_$audioRed" (mkClip 1)) configured));
    [reflexivity|discriminate|reflexivity].
Defined.

(** X6: when two loads are under keys that share a slot, the clip of the
    promise that resolves last is the one played, whichever load was asked
    for first. *)
Theorem loadAudio_last_resolved_wins `{Capitalize} `{AudioEngine}
    (f1 f2 k1 k2 : string) (c1 c2 : AudioClip) (w w1 w2 : World)
    (p1 p2 : Promise AudioClip) :
  k1 ≠ "" → k2 ≠ "" →
  capitalize k2 = capitalize k1 →
  capitalize (capitalize k1) = capitalize k1 →
  run (loadAudio f1 (Some k1)) w = (Returns p1, w1) →
  run (loadAudio f2 (Some k2)) w1 = (Returns p2, w2) →
  plays k1 c2 (on_resolve p2 c2 (on_resolve p1 c1 w2)) ∧
  plays k1 c1 (on_resolve p1 c1 (on_resolve p2 c2 w2)).
Proof.
  unfold run. intros Hk1 Hk2 Hsame Hidem Hl1 Hl2.
  apply loadAudio_returned in Hl1 as (_ & _ & -> & ->).
  apply loadAudio_returned in Hl2 as (_ & _ & -> & ->).
  rewrite !plays_iff. unfold slot. rewrite Hidem. cbn.
  rewrite !truthy_true by done. cbn. rewrite Hsame.
  split; apply lookup_insert_eq.
Qed.

Lemma loadAudio_last_resolved_wins_witness :
  ∃ p1 w1 p2 w2,
    run (@loadAudio first_upper "a.mp3" (Some "red")) configured = (Returns p1, w1) ∧
    run (@loadAudio first_upper "b.mp3" (Some "Red")) w1 = (Returns p2, w2) ∧
    @plays first_upper counting_engine "red" (mkClip 1)
      (on_resolve p1 (mkClip 1) (on_resolve p2 (mkClip 2) w2)).
Proof.
  eexists _, _, _, _. split; [reflexivity|]. split; [reflexivity|].
  eapply (@loadAudio_last_resolved_wins first_upper counting_engine
            "a.mp3" "b.mp3" "red" "Red" (mkClip 1) (mkClip 2) configured);
    [discriminate|discriminate|reflexivity|reflexivity|reflexivity|reflexivity].
Defined.

(** X7: the array form of loadAudios asks the loader once, for the urls of
    the file names in order, each in a list of its own, and registers no
    clip: when its promise resolves the world is as the call left it, and a
    name that playAudio did not find before it still does not find. *)
Theorem loadAudios_array_registers_nothing `{Capitalize} `{AudioEngine}
    (l : list string) (clips : list AudioClip) (w w1 : World)
    (p : Promise (list AudioClip)) :
  run (loadAudios (FArray l)) w = (Returns p, w1) →
  w1 = log_call (LoadAll ((λ it, [resourceHost (this w) +:+ "/"
                                  +:+ directory (this w) +:+ "/" +:+ it]) <$> l)) w ∧
  on_resolve p clips w1 = w1 ∧
  ∀ n, run (playAudio n) w = (Returns (-1), w) →
       run (playAudio n) (on_resolve p clips w1) = (Returns (-1), w1).
Proof.
  unfold run. cbn [loadAudios]. intros Hload.
  destruct (checkHostAndDir_cases w) as [(Hh & Hd & _)|[(Hh & _)|(Hh & Hd & _)]].
  - rewrite loadAudios_array_ok in Hload by done. injection Hload as <- <-.
    split_and!; [done..|]. intros n Hn. cbn.
    destruct (props (this w) !! slot (capitalize n)) as [c|] eqn:Hp.
    + rewrite (playAudio_Some _ _ _ Hp) in Hn. injection Hn as _ Hw.
      by apply log_call_neq in Hw.
    + by apply playAudio_None.
  - pose proof (loadAudios_host (FArray l) w Hh) as Hthrow.
    cbn [loadAudios] in Hthrow. by rewrite Hthrow in Hload.
  - pose proof (loadAudios_dir (FArray l) w Hh Hd) as Hthrow.
    cbn [loadAudios] in Hthrow. by rewrite Hthrow in Hload.
Qed.

Lemma loadAudios_array_registers_nothing_witness :
  ∃ p w1,
    run (@loadAudios first_upper (FArray ["red.mp3"; "green.mp3"])) configured
    = (Returns p, w1) ∧
    calls w1 = [LoadAll [["h/d/red.mp3"]; ["h/d/green.mp3"]]] ∧
    run (@playAudio first_upper counting_engine "red.mp3")
        (on_resolve p [mkClip 1; mkClip 2] w1) = (Returns (-1), w1).
Proof.
  eexists _, _. split; [reflexivity|].
  destruct (@loadAudios_array_registers_nothing first_upper counting_engine
              ["red.mp3"; "green.mp3"] [mkClip 1; mkClip 2] configured _ _ eq_refl)
    as (_ & _ & Hplay).
  split; [reflexivity|]. apply Hplay. reflexivity.
Defined.

(** X8: the record form of loadAudios makes the very request the array
    form makes for the values of the record: the same single loadAll, the
    same world after the call, and the same error when the component is not
    configured. *)
Theorem loadAudios_record_requests_values `{Capitalize}
    (r : list (string * string)) (w : World) :
  NoDup r.*1 →
  (run (loadAudios (FRecord r)) w).2 = (run (loadAudios (FArray r.*2)) w).2 ∧
  thrown (run (loadAudios (FRecord r)) w) = thrown (run (loadAudios (FArray r.*2)) w) ∧
  ∀ p p' w1 w1',
    run (loadAudios (FRecord r)) w = (Returns p, w1) →
    run (loadAudios (FArray r.*2)) w = (Returns p', w1') →
    source p = source p'.
Proof.
  intros Hnd. unfold run, thrown.
  destruct (checkHostAndDir_cases w) as [(Hh & Hd & _)|[(Hh & _)|(Hh & Hd & _)]].
  - rewrite loadAudios_record_ok by done. cbn [loadAudios].
    rewrite loadAudios_array_ok by done. rewrite record_get_values by done.
    split_and!; [done..|]. by intros p p' w1 w1' [= <- _] [= <- _].
  - rewrite !loadAudios_host by done. by split_and!.
  - rewrite !loadAudios_dir by done. by split_and!.
Qed.

Lemma loadAudios_record_requests_values_witness :
  calls (run (@loadAudios first_upper
                (FRecord [("red", "red.mp3"); ("green", "green.mp3")])) configured).2
  = [LoadAll [["h/d/red.mp3"]; ["h/d/green.mp3"]]].
Proof.
  destruct (@loadAudios_record_requests_values first_upper
              [("red", "red.mp3"); ("green", "green.mp3")] configured)
    as (Hw & _).
  - apply NoDup_cons. split.
    + intros Hin. apply list_elem_of_singleton in Hin. discriminate Hin.
    + apply NoDup_singleton.
  - rewrite Hw. reflexivity.
Defined.

(** X9: when the promise of loadAudios(r) resolves with no more clips than
    r has keys, the slot of a key holds the clip of the last key that
    shares that slot and got a clip: a key followed by no such key holds
    its own clip.  This covers a resolution with fewer clips than keys,
    where the keys past the last clip get nothing. *)
Theorem loadAudios_last_key_wins `{Capitalize}
    (r : list (string * string)) (clips : list AudioClip) (w w1 : World)
    (p : Promise (list AudioClip)) (i : nat) (k : string) (c : AudioClip) :
  run (loadAudios (FRecord r)) w = (Returns p, w1) →
  (length clips ≤ length r)%nat →
  r.*1 !! i = Some k → clips !! i = Some c →
  (∀ j k', (i < j)%nat → r.*1 !! j = Some k' → (j < length clips)%nat →
     capitalize k' ≠ capitalize k) →
  props (this (on_resolve p clips w1)) !! ("_$audio" +:+ capitalize k) = Some c.
Proof.
  unfold run. intros Hload _ Hk Hc Hlast.
  apply loadAudios_record_returned in Hload as (_ & _ & -> & ->).
  cbn. by apply (store_clips_last _ _ _ i).
Qed.

Lemma loadAudios_last_key_wins_witness :
  ∃ p w1,
    run (@loadAudios first_upper (FRecord [("red", "a.mp3"); ("Red", "b.mp3")]))
        configured = (Returns p, w1) ∧
    props (this (on_resolve p [mkClip 1; mkClip 2] w1)) !! "_$audioRed"
    = Some (mkClip 2).
Proof.
  eexists _, _. split; [unfold run; rewrite loadAudios_record_ok by discriminate; reflexivity|].
  apply (@loadAudios_last_key_wins first_upper
           [("red", "a.mp3"); ("Red", "b.mp3")] [mkClip 1; mkClip 2]
           configured _ _ 1%nat "Red" (mkClip 2) eq_refl);
    [cbn; lia|reflexivity|reflexivity|].
  intros j k' Hij Hj Hlt. cbn in Hlt. lia.
Defined.

(** X10: when the promise of loadAudios(r) resolves with no more clips
    than r has keys, a slot that none of the keys that got a clip maps to
    is not touched; in particular, resolved with no clip at all, it stores
    nothing, and a key past the last clip keeps whatever it had. *)
Theorem loadAudios_touches_only_its_slots `{Capitalize}
    (r : list (string * string)) (clips : list AudioClip) (w w1 : World)
    (p : Promise (list AudioClip)) (name : string) :
  run (loadAudios (FRecord r)) w = (Returns p, w1) →
  (length clips ≤ length r)%nat →
  (∀ j k', r.*1 !! j = Some k' → (j < length clips)%nat →
     "_$audio" +:+ capitalize k' ≠ name) →
  props (this (on_resolve p clips w1)) !! name = props (this w) !! name.
Proof.
  unfold run. intros Hload _ Hn.
  apply loadAudios_record_returned in Hload as (_ & _ & -> & ->).
  cbn. by apply store_clips_untouched.
Qed.

Lemma loadAudios_touches_only_its_slots_witness :
  ∃ p w1,
    run (@loadAudios first_upper (FRecord [("red", "a.mp3"); ("green", "b.mp3")]))
        configured = (Returns p, w1) ∧
    props (this (on_resolve p [mkClip 1] w1)) !! "_$audioGreen" = None.
Proof.
  eexists _, _. split; [unfold run; rewrite loadAudios_record_ok by discriminate; reflexivity|].
  apply (@loadAudios_touches_only_its_slots first_upper
           [("red", "a.mp3"); ("green", "b.mp3")] [mkClip 1]
           configured _ _ "_$audioGreen" eq_refl); [cbn; lia|].
  intros j k' Hj Hlt. cbn in Hlt. destruct j as [|j]; [|lia].
  cbn in Hj. injection Hj as <-. discriminate.
Defined.

(** ** Playing, and playing after a load *)

(** X11: a clip stays playable.  Once playAudio(k) plays c, it plays c
    again after any call to the component, playAudio(k) itself included:
    playing does not use the clip up, and no method unloads one. *)
Theorem clip_stays_playable `{Capitalize} `{ParseQuery} `{AudioEngine}
    (k : string) (c : AudioClip) (i : Invocation) (w : World) :
  plays k c w → plays k c (world_after i w).
Proof.
  rewrite !plays_iff. intros Hp.
  destruct (world_after_frame i w) as (Hprops & _). by rewrite Hprops.
Qed.

Lemma clip_stays_playable_witness :
  @plays first_upper counting_engine "red" (mkClip 1)
    (@world_after first_upper no_query counting_engine (IPlayAudio "red")
       (set_this (set_prop "_$audioRed" (mkClip 1)) configured)).
Proof.
  apply (@clip_stays_playable first_upper no_query counting_engine
           "red" (mkClip 1) (IPlayAudio "red")
           (set_this (set_prop "_$audioRed" (mkClip 1)) configured)).
  reflexivity.
Defined.

(** X12: when the clip is there and the engine gives a non-negative id,
    playAudioPromise plays it and registers the finish callback for that
    id, whatever tryLoad and ext are: it asks the loader nothing. *)
Theorem playAudioPromise_plays_stored_clip `{Capitalize} `{AudioEngine}
    (a : string) (t : option bool) (key ext : option string) (c : AudioClip)
    (w : World) :
  plays (default a key) c w →
  0 ≤ audioEngine_play (calls w) c →
  run (playAudioPromise a t key ext) w
  = (Returns (Finished (audioEngine_play (calls w) c)),
     log_call (SetFinishCallback (audioEngine_play (calls w) c))
       (log_call (Play c) w)).
Proof.
  unfold plays, run. intros Hplays Hid.
  rewrite (playAudioPromise_run _ _ _ _ _ _ _ Hplays).
  apply Z.ltb_ge in Hid. by rewrite Hid.
Qed.

Lemma playAudioPromise_plays_stored_clip_witness :
  run (@playAudioPromise first_upper counting_engine "red" (Some true) None None)
      (set_this (set_prop "_$audioRed" (mkClip 1)) configured)
  = (Returns (Finished 0),
     log_call (SetFinishCallback 0)
       (log_call (Play (mkClip 1))
          (set_this (set_prop "_$audioRed" (mkClip 1)) configured))).
Proof.
  apply (@playAudioPromise_plays_stored_clip first_upper counting_engine
           "red" (Some true) None None (mkClip 1)
           (set_this (set_prop "_$audioRed" (mkClip 1)) configured));
    [reflexivity|unfold audioEngine_play, counting_engine; simpl; lia].
Defined.

(** X13: playAudioPromise loads at most once.  A call that returns a
    chained promise has made one request to the loader, after at most one
    play.  The retry chained after the load is playAudioPromise(audioName)
    with its defaults, and whatever the world it runs in it neither throws
    nor asks the loader anything: it rejects with "not found" leaving the
    world as it is when there is no clip, and otherwise plays the clip and
    then rejects, on a negative id, or registers the finish callback. *)
Theorem playAudioPromise_retries_once `{Capitalize} `{AudioEngine}
    (a : string) (t : option bool) (key ext : option string) (w w1 w2 : World)
    (p : Promise AudioClip) (next : M PlayPromise) :
  run (playAudioPromise a t key ext) w = (Returns (Chained p next), w1) →
  next = playAudioPromise a None None None ∧
  (∃ url, w1 = log_call (Load url) w ∨
          ∃ clip, w1 = log_call (Load url) (log_call (Play clip) w)) ∧
  ((props (this w2) !! ("_$audio" +:+ capitalize (capitalize a)) = None ∧
    run next w2 = (Returns (Rejected (a +:+ " not found!")), w2)) ∨
   ∃ clip,
     props (this w2) !! ("_$audio" +:+ capitalize (capitalize a)) = Some clip ∧
     ((audioEngine_play (calls w2) clip < 0 ∧
       run next w2
       = (Returns (Rejected (a +:+ " not found!")), log_call (Play clip) w2)) ∨
      (0 ≤ audioEngine_play (calls w2) clip ∧
       run next w2
       = (Returns (Finished (audioEngine_play (calls w2) clip)),
          log_call (SetFinishCallback (audioEngine_play (calls w2) clip))
            (log_call (Play clip) w2))))).
Proof.
  unfold run. intros Hrun.
  assert (next = playAudioPromise a None None None ∧
          ∃ url, w1 = log_call (Load url) w ∨
                 ∃ clip, w1 = log_call (Load url) (log_call (Play clip) w))
    as [-> Hw1].
  { destruct (playAudio_cases (default a key) w) as [Hp|[c Hp]];
      rewrite (playAudioPromise_run _ _ _ _ _ _ _ Hp) in Hrun;
      (match type of Hrun with context [if ?b then _ else _] => destruct b end;
         [|done]);
      (destruct (negb (default false t)); [done|]).
    - destruct (loadAudio_world (a +:+ default ".mp3" ext)
                  (Some (default a key)) w) as [(p' & url & Hl)|(err & Hl)];
        rewrite Hl in Hrun; simplify_eq. eauto.
    - destruct (loadAudio_world (a +:+ default ".mp3" ext)
                  (Some (default a key)) (log_call (Play c) w))
        as [(p' & url & Hl)|(err & Hl)];
        rewrite Hl in Hrun; simplify_eq. eauto. }
  split_and!; [done..|].
  destruct (props (this w2) !! slot (capitalize a)) as [c|] eqn:Hslot.
  - rewrite (playAudioPromise_run a None None None w2 _ _
               (playAudio_Some a c w2 Hslot)); cbn [default negb].
    right. exists c. split; [done|].
    destruct (audioEngine_play (calls w2) c <? 0) eqn:Hid.
    + left. by apply Z.ltb_lt in Hid.
    + right. by apply Z.ltb_ge in Hid.
  - rewrite (playAudioPromise_run a None None None w2 _ _
               (playAudio_None a w2 Hslot)); cbn [default negb].
    by left.
Qed.

Lemma playAudioPromise_retries_once_witness :
  ∃ p next w1,
    run (@playAudioPromise first_upper counting_engine "red" (Some true) None None)
        configured = (Returns (Chained p next), w1) ∧
    next = @playAudioPromise first_upper counting_engine "red" None None None.
Proof.
  eexists _, _, _. split; [reflexivity|].
  eapply (@playAudioPromise_retries_once first_upper counting_engine
            "red" (Some true) None None configured _ configured).
  reflexivity.
Defined.

(** X14: playAudioPromise(audioName, true) with the key left out, on a
    configured component that has no clip for audioName, carries through:
    it asks the loader for urlOf(audioName + ext), and once the load has
    resolved with clip c the retry plays c.  The retry waits for the finish
    callback when the engine gives a non-negative id, and rejects with
    "not found" when the engine gives a negative one. *)
Theorem playAudioPromise_tryLoad_plays `{Capitalize} `{AudioEngine}
    (a : string) (ext : option string) (c : AudioClip) (w : World) :
  a ≠ "" →
  capitalize (capitalize a) = capitalize a →
  resourceHost (this w) ≠ "" → directory (this w) ≠ "" →
  props (this w) !! ("_$audio" +:+ capitalize a) = None →
  ∃ p next,
    let url := resourceHost (this w) +:+ "/" +:+ directory (this w) +:+ "/"
               +:+ a +:+ default ".mp3" ext in
    let w2 := on_resolve p c (log_call (Load url) w) in
    let id := audioEngine_play (calls w2) c in
    run (playAudioPromise a (Some true) None ext) w
    = (Returns (Chained p next), log_call (Load url) w) ∧
    run next w2
    = if id <? 0
      then (Returns (Rejected (a +:+ " not found!")), log_call (Play c) w2)
      else (Returns (Finished id),
            log_call (SetFinishCallback id) (log_call (Play c) w2)).
Proof.
  intros Ha Hidem Hh Hd Hnone. unfold run.
  assert (playAudio a w = (Returns (-1), w)) as Hplay.
  { apply playAudio_None. unfold slot. by rewrite Hidem. }
  rewrite (playAudioPromise_run a (Some true) None ext w _ _ Hplay).
  cbn [default negb]. change (-1 <? 0) with true. cbv iota.
  rewrite loadAudio_ok by done. eexists _, _. split; [reflexivity|].
  cbn [on_resolve audio_promise]. rewrite truthy_true by done.
  set (w2 := set_this _ _).
  assert (playAudio a w2 = (Returns (audioEngine_play (calls w2) c),
                            log_call (Play c) w2)) as Hplay2.
  { apply playAudio_Some. unfold slot. rewrite Hidem. subst w2. cbn.
    apply lookup_insert_eq. }
  rewrite (playAudioPromise_run a None None None w2 _ _ Hplay2).
  by destruct (_ <? 0).
Qed.

Lemma playAudioPromise_tryLoad_plays_witness :
  ∃ p next,
    let w2 := on_resolve p (mkClip 1) (log_call (Load "h/d/red.mp3") configured) in
    let id := counting_engine (calls w2) (mkClip 1) in
    run (@playAudioPromise first_upper counting_engine "red" (Some true) None None)
        configured
    = (Returns (Chained p next), log_call (Load "h/d/red.mp3") configured) ∧
    run next w2
    = if id <? 0
      then (Returns (Rejected "red not found!"), log_call (Play (mkClip 1)) w2)
      else (Returns (Finished id),
            log_call (SetFinishCallback id) (log_call (Play (mkClip 1)) w2)).
Proof.
  apply (@playAudioPromise_tryLoad_plays first_upper counting_engine
           "red" None (mkClip 1) configured);
    [discriminate|reflexivity|discriminate|discriminate|reflexivity].
Defined.

(** X15: with an explicit key that does not share the slot of audioName,
    the load stores the clip under the key but the retry looks audioName
    up: when audioName has no clip of its own, playAudioPromise(audioName,
    true, key) loads, stores, and then rejects with "not found", and the
    clip is played only by asking for the key. *)
Theorem playAudioPromise_tryLoad_explicit_key `{Capitalize} `{AudioEngine}
    (a k : string) (ext : option string) (c : AudioClip) (w : World) :
  k ≠ "" →
  capitalize k ≠ capitalize (capitalize a) →
  capitalize (capitalize k) = capitalize k →
  resourceHost (this w) ≠ "" → directory (this w) ≠ "" →
  props (this w) !! ("_$audio" +:+ capitalize (capitalize a)) = None →
  props (this w) !! ("_$audio" +:+ capitalize k) = None →
  ∃ p next,
    let url := resourceHost (this w) +:+ "/" +:+ directory (this w) +:+ "/"
               +:+ a +:+ default ".mp3" ext in
    let w2 := on_resolve p c (log_call (Load url) w) in
    run (playAudioPromise a (Some true) (Some k) ext) w
    = (Returns (Chained p next), log_call (Load url) w) ∧
    run next w2 = (Returns (Rejected (a +:+ " not found!")), w2) ∧
    plays k c w2.
Proof.
  intros Hk Hne Hidem Hh Hd Hnone_a Hnone_k. unfold run.
  assert (playAudio k w = (Returns (-1), w)) as Hplay.
  { apply playAudio_None. unfold slot. by rewrite Hidem. }
  rewrite (playAudioPromise_run a (Some true) (Some k) ext w _ _ Hplay).
  cbn [default negb]. change (-1 <? 0) with true. cbv iota.
  rewrite loadAudio_ok by done. eexists _, _. split; [reflexivity|].
  cbn [on_resolve audio_promise default]. rewrite truthy_true by done.
  set (w2 := set_this _ _).
  assert (playAudio a w2 = (Returns (-1), w2)) as Hplay2.
  { apply playAudio_None. unfold slot. subst w2. cbn.
    rewrite lookup_insert_ne; [done|]. intros Heq. by apply (inj _) in Heq. }
  rewrite (playAudioPromise_run a None None None w2 _ _ Hplay2).
  split; [done|]. apply plays_iff. unfold slot. rewrite Hidem. subst w2. cbn.
  apply lookup_insert_eq.
Qed.

Lemma playAudioPromise_tryLoad_explicit_key_witness :
  ∃ p next,
    let w2 := on_resolve p (mkClip 1) (log_call (Load "h/d/red.mp3") configured) in
    run (@playAudioPromise first_upper counting_engine "red" (Some true)
           (Some "alarm") None) configured
    = (Returns (Chained p next), log_call (Load "h/d/red.mp3") configured) ∧
    run next w2 = (Returns (Rejected "red not found!"), w2) ∧
    @plays first_upper counting_engine "alarm" (mkClip 1) w2.
Proof.
  apply (@playAudioPromise_tryLoad_explicit_key first_upper counting_engine
           "red" "alarm" None (mkClip 1) configured);
    [discriminate|discriminate|reflexivity|discriminate|discriminate
    |reflexivity|reflexivity].
Defined.

(** ** Configuring, and the lifecycle hook *)

Lemma string_app_inj (p a b : string) : p +:+ a = p +:+ b → a = b.
Proof. induction p as [|x p IH]; cbn; [done|]. intros [= Heq]. by apply IH. Qed.

(** X16: the two setters commute, and a path resolved after them is built
    from the values just set, whatever the component held before: with h
    and d non-empty, urlOf(f) after setResourceHost(h) and setDirectory(d),
    in either order, is h + "/" + d + "/" + f. *)
Theorem setters_then_urlOf (h d f : string) (w : World) :
  h ≠ "" → d ≠ "" →
  run (setResourceHost h ≫= λ _, setDirectory d ≫= λ _, urlOf f None) w
  = run (setDirectory d ≫= λ _, setResourceHost h ≫= λ _, urlOf f None) w ∧
  (run (setResourceHost h ≫= λ _, setDirectory d ≫= λ _, urlOf f None) w).1
  = Returns (h +:+ "/" +:+ d +:+ "/" +:+ f).
Proof.
  intros Hh Hd. unfold setResourceHost, setDirectory. run_monad.
  rewrite !urlOf_ok by done. by cbn.
Qed.

Lemma setters_then_urlOf_witness :
  (run (setResourceHost "cdn" ≫= λ _, setDirectory "sfx" ≫= λ _,
        urlOf "red.mp3" None) unconfigured).1
  = Returns "cdn/sfx/red.mp3".
Proof.
  apply (setters_then_urlOf "cdn" "sfx" "red.mp3" unconfigured); discriminate.
Defined.

(** X17: setting a property back to the empty string arms the guard again:
    after setResourceHost(""), urlOf throws the resource-host error whatever
    the directory is; after setDirectory("") on a component with a host it
    throws the directory error.  In both cases the setter's own change is
    kept. *)
Theorem emptying_rearms_guard (f : string) (dir : option string) (w : World) :
  run (setResourceHost "" ≫= λ _, urlOf f dir) w
  = (Throws host_error, set_this (set_resourceHost "") w) ∧
  (resourceHost (this w) ≠ "" →
   run (setDirectory "" ≫= λ _, urlOf f dir) w
   = (Throws directory_error, set_this (set_directory "") w)).
Proof.
  unfold setResourceHost, setDirectory. split.
  - run_monad. by rewrite urlOf_host.
  - intros Hh. run_monad. by rewrite urlOf_dir.
Qed.

Lemma emptying_rearms_guard_witness :
  run (setDirectory "" ≫= λ _, urlOf "red.mp3" (Some "sfx")) configured
  = (Throws directory_error, set_this (set_directory "") configured).
Proof.
  apply (emptying_rearms_guard "red.mp3" (Some "sfx") configured). discriminate.
Defined.

(** X18: for a given directory argument, urlOf tells file names apart: two
    file names that resolve to the same path on the same component are the
    same name. *)
Theorem urlOf_injective (f f' : string) (dir : option string) (u : string)
    (w w1 w2 : World) :
  run (urlOf f dir) w = (Returns u, w1) →
  run (urlOf f' dir) w = (Returns u, w2) →
  f = f'.
Proof.
  unfold run. intros Hf Hf'.
  destruct (checkHostAndDir_cases w) as [(Hh & Hd & _)|[(Hh & _)|(Hh & Hd & _)]].
  - rewrite urlOf_ok in Hf, Hf' by done.
    injection Hf as Hu _. injection Hf' as Hu' _. rewrite <- Hu' in Hu.
    by do 4 apply string_app_inj in Hu.
  - by rewrite urlOf_host in Hf.
  - by rewrite urlOf_dir in Hf.
Qed.

Lemma urlOf_injective_witness : "red.mp3" = "red.mp3".
Proof.
  apply (urlOf_injective "red.mp3" "red.mp3" None "h/d/red.mp3" configured
           configured configured); reflexivity.
Defined.

(** X19: onLoad can be run again without harm: running it twice leaves the
    world exactly as running it once.  It keeps the configuration and the
    clips, and asks the engine nothing. *)
Theorem onLoad_idempotent `{ParseQuery} (w : World) :
  run (onLoad ≫= λ _, onLoad) w = run onLoad w ∧
  resourceHost (this (run onLoad w).2) = resourceHost (this w) ∧
  directory (this (run onLoad w).2) = directory (this w) ∧
  props (this (run onLoad w).2) = props (this w) ∧
  calls (run onLoad w).2 = calls w.
Proof.
  unfold onLoad. run_monad.
  by destruct w as [g [cm|] search history].
Qed.

(** ** Images *)

(** The callback on the component list alone. *)
Lemma set_spriteFrame_found (frame : SpriteFrame) (cs : list Component) (s : Sprite) :
  getComponent_Sprite cs = Some s →
  getComponent_Sprite (set_spriteFrame frame cs)
  = Some {| spriteFrame := Some frame; sprite_state := sprite_state s |} ∧
  sprite_count (set_spriteFrame frame cs) = sprite_count cs ∧
  other_components (set_spriteFrame frame cs) = other_components cs.
Proof.
  induction cs as [|[s'|t] cs IH]; [done| |].
  - by intros [= ->].
  - cbn. intros Hs. destruct (IH Hs) as (? & ? & ?). split_and!; [done..|].
    by f_equal.
Qed.

(** The assignment changes the first sprite where it stands and nothing
    around it. *)
Lemma set_spriteFrame_split (frame : SpriteFrame) (cs : list Component) (s : Sprite) :
  getComponent_Sprite cs = Some s →
  ∃ l1 l2,
    cs = l1 ++ CSprite s :: l2 ∧ getComponent_Sprite l1 = None ∧
    set_spriteFrame frame cs
    = l1 ++ CSprite {| spriteFrame := Some frame; sprite_state := sprite_state s |}
         :: l2.
Proof.
  induction cs as [|[s'|t] cs IH].
  - done.
  - intros [= ->]. by exists [], cs.
  - cbn. intros Hs. destruct (IH Hs) as (l1 & l2 & -> & Hl1 & Hset).
    exists (COther t :: l1), l2. split_and!; [done..|]. cbn. by rewrite Hset.
Qed.

Lemma set_spriteFrame_added (frame : SpriteFrame) (cs : list Component) (s : Sprite) :
  getComponent_Sprite cs = None →
  set_spriteFrame frame (cs ++ [CSprite s])
  = cs ++ [CSprite {| spriteFrame := Some frame; sprite_state := sprite_state s |}].
Proof.
  induction cs as [|[s'|t] cs IH]; [done..|].
  cbn. intros Hs. by rewrite (IH Hs).
Qed.

Lemma getComponent_Sprite_count (cs : list Component) (s : Sprite) :
  getComponent_Sprite cs = Some s → (1 ≤ sprite_count cs)%nat.
Proof.
  induction cs as [|[s'|t] cs IH]; [done| |by apply IH].
  intros _. cbn. lia.
Qed.

Lemma getComponent_Sprite_None (cs : list Component) :
  getComponent_Sprite cs = None →
  sprite_count cs = 0%nat ∧
  ∀ s, getComponent_Sprite (cs ++ [CSprite s]) = Some s ∧
       sprite_count (cs ++ [CSprite s]) = 1%nat ∧
       other_components (cs ++ [CSprite s]) = other_components cs.
Proof.
  induction cs as [|[s'|t] cs IH]; [done..|].
  cbn. intros Hs. destruct (IH Hs) as (Hc & Hall). split; [done|].
  intros s. destruct (Hall s) as (? & ? & ?). split_and!; [done..|].
  by f_equal.
Qed.

(** Copying [initProps] touches the data properties only. *)
Lemma copy_props_components (ps : list (string * Value)) (n : NodeState) :
  components (foldl (λ n iv, set_field iv.1 iv.2 n) n ps) = components n.
Proof. revert n. induction ps as [|iv ps IH]; intros n; [done|]. cbn. by rewrite IH. Qed.

Lemma copy_props_other (ps : list (string * Value)) (n : NodeState) (name : string) :
  name ∉ ps.*1 →
  fields (foldl (λ n iv, set_field iv.1 iv.2 n) n ps) !! name = fields n !! name.
Proof.
  revert n. induction ps as [|[i v] ps IH]; intros n Hn; [done|].
  rewrite fmap_cons, not_elem_of_cons in Hn. destruct Hn as [Hne Hn].
  cbn. rewrite IH by done. cbn. by rewrite lookup_insert_ne.
Qed.

Lemma copy_props_set (ps : list (string * Value)) (n : NodeState)
    (i : string) (v : Value) :
  NoDup ps.*1 → (i, v) ∈ ps →
  fields (foldl (λ n iv, set_field iv.1 iv.2 n) n ps) !! i = Some v.
Proof.
  revert n. induction ps as [|[i' v'] ps IH]; intros n Hnd Hin.
  { by apply elem_of_nil in Hin. }
  rewrite fmap_cons, NoDup_cons in Hnd. destruct Hnd as [Hi' Hnd].
  apply elem_of_cons in Hin as [[= -> ->]|Hin]; cbn.
  - rewrite copy_props_other by done. cbn. apply lookup_insert_eq.
  - by apply IH.
Qed.

Lemma loadImage_returned (path : string) (node : Node)
    (ip : option (list (string * Value))) (w w1 : World) (p : ImagePromise) :
  loadImage path node ip w = (Returns (Pending p), w1) →
  resourceHost (this w) ≠ "" ∧ directory (this w) ≠ "" ∧
  p = mkImagePromise (Load (resourceHost (this w) +:+ "/" +:+ directory (this w)
                            +:+ "/" +:+ path)) node (loadImage_then ip) ∧
  w1 = log_call (Load (resourceHost (this w) +:+ "/" +:+ directory (this w)
                       +:+ "/" +:+ path)) w.
Proof.
  unfold loadImage, new_Promise. rewrite bind_run.
  destruct (checkHostAndDir_cases w) as [(Hh & Hd & _)|[(Hh & _)|(Hh & Hd & _)]].
  - rewrite urlOf_ok by done. run_monad. by intros [= <- <-].
  - by rewrite urlOf_host.
  - by rewrite urlOf_dir.
Qed.

(** X20: loadImage never throws.  On a component whose resourceHost or
    directory is empty it returns a promise already rejected with the
    configuration error, the host one first, and asks the loader nothing;
    otherwise it asks the loader for urlOf(path), once, and returns a
    pending promise for the node it was given. *)
Theorem loadImage_rejects_instead_of_throwing (path : string) (node : Node)
    (ip : option (list (string * Value))) (w : World) :
  (resourceHost (this w) = "" →
     run (loadImage path node ip) w = (Returns (RejectedWith host_error), w)) ∧
  (resourceHost (this w) ≠ "" → directory (this w) = "" →
     run (loadImage path node ip) w = (Returns (RejectedWith directory_error), w)) ∧
  (resourceHost (this w) ≠ "" → directory (this w) ≠ "" →
     ∃ p, run (loadImage path node ip) w
          = (Returns (Pending p),
             log_call (Load (resourceHost (this w) +:+ "/" +:+ directory (this w)
                             +:+ "/" +:+ path)) w) ∧
          image_source p = Load (resourceHost (this w) +:+ "/"
                                 +:+ directory (this w) +:+ "/" +:+ path) ∧
          image_node p = node).
Proof.
  unfold run, loadImage, new_Promise. rewrite bind_run. split_and!.
  - intros Hh. by rewrite urlOf_host.
  - intros Hh Hd. by rewrite urlOf_dir.
  - intros Hh Hd. rewrite urlOf_ok by done. run_monad. eauto.
Qed.

Lemma loadImage_rejects_instead_of_throwing_witness :
  run (loadImage "hero.png" (mkNode 0) None) unconfigured
  = (Returns (RejectedWith host_error), unconfigured) ∧
  ∃ p, run (loadImage "hero.png" (mkNode 0) None) configured
       = (Returns (Pending p), log_call (Load "h/d/hero.png") configured).
Proof.
  split.
  - apply (loadImage_rejects_instead_of_throwing "hero.png" (mkNode 0) None
             unconfigured). reflexivity.
  - destruct (loadImage_rejects_instead_of_throwing "hero.png" (mkNode 0) None
                configured) as (_ & _ & Hok).
    destruct Hok as (p & Hrun & _); [discriminate..|]. exists p. exact Hrun.
Defined.

(** X21: when the texture arrives, the node shows it through exactly one
    sprite and nothing else about its components changes.  A sprite already
    on the node is reused: the first one gets the frame made from the
    texture where it stands, keeping the rest of its state, and every
    component before and after it, further sprites included, is left as it
    was.  A node without a sprite gets one, added after its components,
    which are left as they were.  The sprite the promise resolves with is
    that sprite. *)
Theorem loadImage_dresses_node (path : string) (node : Node)
    (ip : option (list (string * Value))) (w w1 : World) (p : ImagePromise)
    (tex : Texture) (n : NodeState) :
  run (loadImage path node ip) w = (Returns (Pending p), w1) →
  ∃ s,
    (image_on_resolve p tex n).2 = Some s ∧
    getComponent_Sprite (components (image_on_resolve p tex n).1) = Some s ∧
    spriteFrame s = Some (mkSpriteFrame tex) ∧
    sprite_count (components (image_on_resolve p tex n).1)
    = Nat.max 1 (sprite_count (components n)) ∧
    other_components (components (image_on_resolve p tex n).1)
    = other_components (components n) ∧
    (∀ s0, getComponent_Sprite (components n) = Some s0 →
           sprite_state s = sprite_state s0) ∧
    ((∃ l1 s0 l2,
        components n = l1 ++ CSprite s0 :: l2 ∧
        getComponent_Sprite l1 = None ∧
        components (image_on_resolve p tex n).1 = l1 ++ CSprite s :: l2 ∧
        s = {| spriteFrame := Some (mkSpriteFrame tex);
               sprite_state := sprite_state s0 |}) ∨
     (getComponent_Sprite (components n) = None ∧
      components (image_on_resolve p tex n).1 = components n ++ [CSprite s] ∧
      s = {| spriteFrame := Some (mkSpriteFrame tex); sprite_state := 0 |})).
Proof.
  unfold run. intros Hrun.
  apply loadImage_returned in Hrun as (_ & _ & -> & _).
  cbn [image_on_resolve]. unfold loadImage_then. cbn [fst snd].
  set (frame := mkSpriteFrame tex).
  assert (∀ m : NodeState,
            components (match ip with
                        | Some ps => foldl (λ n iv, set_field iv.1 iv.2 n) m ps
                        | None => m
                        end) = components m) as Hcopy.
  { intros m. destruct ip; [apply copy_props_components|done]. }
  rewrite !Hcopy. cbn [components].
  destruct (getComponent_Sprite (components n)) as [s0|] eqn:Hs0.
  - destruct (set_spriteFrame_found frame _ _ Hs0) as (Hget & Hcount & Hother).
    destruct (set_spriteFrame_split frame _ _ Hs0) as (l1 & l2 & Hn & Hl1 & Hset).
    eexists. split_and!;
      [exact Hget|exact Hget|done| |done|by intros ? [= <-]|].
    + rewrite Hcount. pose proof (getComponent_Sprite_count _ _ Hs0). lia.
    + left. by exists l1, s0, l2.
  - destruct (getComponent_Sprite_None _ Hs0) as (Hzero & Hadd).
    destruct (Hadd {| spriteFrame := None; sprite_state := 0 |})
      as (Hget & Hcount & Hother).
    cbn [addComponent_Sprite components].
    destruct (set_spriteFrame_found frame _ _ Hget) as (Hget' & Hcount' & Hother').
    eexists. split_and!; [exact Hget'|exact Hget'|done| |congruence|done|].
    + rewrite Hcount', Hcount, Hzero. done.
    + right. split_and!; [done| |done].
      by rewrite set_spriteFrame_added.
Qed.

Lemma loadImage_dresses_node_witness :
  ∃ p w1,
    run (loadImage "hero.png" (mkNode 0) None) configured = (Returns (Pending p), w1) ∧
    sprite_count (components (image_on_resolve p (mkTexture 1)
                                {| components := [COther 5]; fields := ∅ |}).1)
    = 1%nat.
Proof.
  eexists _, _. split; [reflexivity|].
  destruct (loadImage_dresses_node "hero.png" (mkNode 0) None configured _ _
              (mkTexture 1) {| components := [COther 5]; fields := ∅ |} eq_refl)
    as (s & _ & _ & _ & Hcount & _).
  exact Hcount.
Defined.

(** X22: the properties of initProps are copied onto the node, each under
    its own name, and nothing else among the node's properties changes;
    without initProps none changes. *)
Theorem loadImage_copies_initProps (path : string) (node : Node)
    (ip : option (list (string * Value))) (w w1 : World) (p : ImagePromise)
    (tex : Texture) (n : NodeState) :
  run (loadImage path node ip) w = (Returns (Pending p), w1) →
  match ip with
  | None => fields (image_on_resolve p tex n).1 = fields n
  | Some ps =>
      (∀ name, name ∉ ps.*1 →
         fields (image_on_resolve p tex n).1 !! name = fields n !! name) ∧
      (NoDup ps.*1 → ∀ i v, (i, v) ∈ ps →
         fields (image_on_resolve p tex n).1 !! i = Some v)
  end.
Proof.
  unfold run. intros Hrun.
  apply loadImage_returned in Hrun as (_ & _ & -> & _).
  cbn [image_on_resolve]. unfold loadImage_then. cbn [fst].
  destruct ip as [ps|].
  - split.
    + intros name Hn. rewrite copy_props_other by done. cbn.
      by destruct (getComponent_Sprite (components n)).
    + intros Hnd i v Hin. by apply copy_props_set.
  - cbn. by destruct (getComponent_Sprite (components n)).
Qed.

Lemma loadImage_copies_initProps_witness :
  ∃ p w1,
    run (loadImage "hero.png" (mkNode 0) (Some [("x", VNumber 10)])) configured
    = (Returns (Pending p), w1) ∧
    fields (image_on_resolve p (mkTexture 1)
              {| components := []; fields := ∅ |}).1 !! "x" = Some (VNumber 10).
Proof.
  eexists _, _. split; [reflexivity|].
  destruct (loadImage_copies_initProps "hero.png" (mkNode 0)
              (Some [("x", VNumber 10)]) configured _ _
              (mkTexture 1) {| components := []; fields := ∅ |} eq_refl)
    as (_ & Hset).
  apply Hset; [apply NoDup_singleton|apply list_elem_of_singleton; reflexivity].
Defined.
